(** * GREEKERS: the quantitative engine of [FinancialService]

    A shallow embedding of the pricing, statistics, chain-generation,
    risk and hedging methods of the TypeScript class [FinancialService],
    together with the properties its specification states about them.

    Numbers.  A JavaScript [number] is modelled by the type [num]: a
    finite value carried by a real, the two infinities and NaN.  Finite
    arithmetic is exact (no rounding, no overflow, no negative zero);
    the special values follow IEEE 754 as JavaScript exposes them
    ([x / 0], [0 / 0], [Infinity - Infinity], comparisons with NaN, ...). *)

From Stdlib Require Import Reals Lra Lia ZArith Bool String List Permutation.
From Stdlib Require Import Sorted.
Import ListNotations.

Set Implicit Arguments.

(* ================================================================= *)
(** ** JavaScript numbers *)

Module JS.

Inductive num : Type :=
| Fin (x : R)
| PInf
| NInf
| NaN.

Definition Rleb (x y : R) : bool := if Rle_dec x y then true else false.
Definition Rltb (x y : R) : bool := if Rlt_dec x y then true else false.
Definition Reqb (x y : R) : bool := if Req_dec_T x y then true else false.

(** Sign of a real, as a [comparison] with zero. *)
Definition Rsign (x : R) : comparison :=
  if Rlt_dec 0 x then Gt else if Rlt_dec x 0 then Lt else Eq.

Definition sign_mul (a b : comparison) : comparison :=
  match a, b with
  | Eq, _ | _, Eq => Eq
  | Gt, Gt | Lt, Lt => Gt
  | Gt, Lt | Lt, Gt => Lt
  end.

(** The infinity of a given sign; a zero sign stands for an undefined
    form such as [0 * Infinity] or [0 / 0]. *)
Definition inf_of_sign (s : comparison) : num :=
  match s with Gt => PInf | Lt => NInf | Eq => NaN end.

(** Sign of a non-NaN number. *)
Definition sgn (a : num) : comparison :=
  match a with
  | Fin x => Rsign x
  | PInf => Gt
  | NInf => Lt
  | NaN => Eq
  end.

Definition neg (a : num) : num :=
  match a with
  | Fin x => Fin (- x)
  | PInf => NInf
  | NInf => PInf
  | NaN => NaN
  end.

Definition add (a b : num) : num :=
  match a, b with
  | Fin x, Fin y => Fin (x + y)
  | NaN, _ | _, NaN => NaN
  | PInf, NInf | NInf, PInf => NaN
  | PInf, _ | _, PInf => PInf
  | NInf, _ | _, NInf => NInf
  end.

Definition sub (a b : num) : num := add a (neg b).

Definition mul (a b : num) : num :=
  match a, b with
  | Fin x, Fin y => Fin (x * y)
  | NaN, _ | _, NaN => NaN
  | _, _ => inf_of_sign (sign_mul (sgn a) (sgn b))
  end.

(** Division.  A finite value over zero is an infinity of the sign of
    the numerator ([0 / 0] is NaN); a finite value over an infinity is
    zero. *)
Definition div (a b : num) : num :=
  match a, b with
  | NaN, _ | _, NaN => NaN
  | Fin x, Fin y =>
      if Req_dec_T y 0 then inf_of_sign (Rsign x) else Fin (x / y)
  | Fin _, _ => Fin 0
  | _, Fin y =>
      inf_of_sign (sign_mul (sgn a) (if Req_dec_T y 0 then Gt else Rsign y))
  | _, _ => NaN
  end.

(** Comparisons: every comparison with NaN is false. *)
Definition le (a b : num) : bool :=
  match a, b with
  | NaN, _ | _, NaN => false
  | Fin x, Fin y => Rleb x y
  | NInf, _ => true
  | _, PInf => true
  | _, _ => false
  end.

Definition lt (a b : num) : bool :=
  match a, b with
  | NaN, _ | _, NaN => false
  | Fin x, Fin y => Rltb x y
  | PInf, _ => false
  | _, NInf => false
  | _, _ => true
  end.

Definition ge (a b : num) : bool := le b a.
Definition gt (a b : num) : bool := lt b a.

(** Strict equality [===] on numbers: NaN differs from itself. *)
Definition eqb (a b : num) : bool :=
  match a, b with
  | Fin x, Fin y => Reqb x y
  | PInf, PInf | NInf, NInf => true
  | _, _ => false
  end.

Definition isFinite (a : num) : bool :=
  match a with Fin _ => true | _ => false end.

Definition Math_abs (a : num) : num :=
  match a with
  | Fin x => Fin (Rabs x)
  | PInf | NInf => PInf
  | NaN => NaN
  end.

Definition Math_max (a b : num) : num :=
  match a, b with
  | NaN, _ | _, NaN => NaN
  | _, _ => if le a b then b else a
  end.

Definition Math_sqrt (a : num) : num :=
  match a with
  | Fin x => if Rlt_dec x 0 then NaN else Fin (sqrt x)
  | PInf => PInf
  | NInf | NaN => NaN
  end.

Definition Math_exp (a : num) : num :=
  match a with
  | Fin x => Fin (exp x)
  | PInf => PInf
  | NInf => Fin 0
  | NaN => NaN
  end.

Definition Math_log (a : num) : num :=
  match a with
  | Fin x =>
      if Rlt_dec 0 x then Fin (ln x)
      else if Rlt_dec x 0 then NaN else NInf
  | PInf => PInf
  | NInf | NaN => NaN
  end.

(** [Math.floor]; [Int_part] is the integer floor of a real. *)
Definition Math_floor (a : num) : num :=
  match a with
  | Fin x => Fin (IZR (Int_part x))
  | _ => a
  end.

(** [Math.round]: nearest integer, halves towards +Infinity. *)
Definition Math_round (a : num) : num :=
  match a with
  | Fin x => Fin (IZR (Int_part (x + / 2)))
  | _ => a
  end.

(** [Math.pow (x, k)] for the literal exponents 2, 3 and 4 of the
    source: a product of [k] factors. *)
Fixpoint Math_pow (a : num) (k : nat) : num :=
  match k with
  | O => Fin 1
  | S O => a
  | S k' => mul a (Math_pow a k')
  end.

Definition Math_PI : num := Fin PI.

(** A number used as an array index ([a[i]]): only a non-negative
    integer names an element. *)
Definition index_of (a : num) : option nat :=
  match a with
  | Fin x =>
      if Rlt_dec x 0 then None
      else if Req_dec_T (IZR (Int_part x)) x then Some (Z.to_nat (Int_part x))
      else None
  | _ => None
  end.

Definition of_nat (n : nat) : num := Fin (INR n).

End JS.

Import JS.

Declare Scope num_scope.
Delimit Scope num_scope with num.
Bind Scope num_scope with num.
Notation "x + y" := (add x y) : num_scope.
Notation "x - y" := (sub x y) : num_scope.
Notation "x * y" := (mul x y) : num_scope.
Notation "x / y" := (div x y) : num_scope.
Notation "- x" := (neg x) : num_scope.
Notation "x <=? y" := (le x y) : num_scope.
Notation "x <? y" := (lt x y) : num_scope.
Notation "x >=? y" := (ge x y) : num_scope.
Notation "x >? y" := (gt x y) : num_scope.
Notation "x =? y" := (eqb x y) : num_scope.

(** Decimal literals of the source. *)
Notation "# x" := (Fin x%R) (at level 5, x at level 0, format "# x") : num_scope.

(* ================================================================= *)
(** ** Arrays *)

Section Arrays.
Context {A : Type}.

(** [arr.map ((x, i) => f x i)]. *)
Fixpoint mapi_from (i : nat) (f : A -> nat -> num) (l : list A) : list num :=
  match l with
  | [] => []
  | x :: l' => f x i :: mapi_from (S i) f l'
  end.

Definition mapi (f : A -> nat -> num) (l : list A) : list num :=
  mapi_from 0 f l.

(** [arr.pop ()] after a chain of array methods: the last element. *)
Fixpoint pop (l : list A) : option A :=
  match l with
  | [] => None
  | [x] => Some x
  | _ :: l' => pop l'
  end.

(** [arr.sort (cmp)].  The sort is stable; it is written here as the
    insertion of each element in front of the sorted rest, moving past
    an element only when the comparator is strictly positive. *)
Fixpoint insert_by (cmp : A -> A -> num) (x : A) (l : list A) : list A :=
  match l with
  | [] => [x]
  | y :: l' =>
      if (cmp x y >? Fin 0)%num then y :: insert_by cmp x l' else x :: l
  end.

Fixpoint sort_by (cmp : A -> A -> num) (l : list A) : list A :=
  match l with
  | [] => []
  | x :: l' => insert_by cmp x (sort_by cmp l')
  end.
End Arrays.

(** [arr[i]] on an array of numbers; a read out of range is
    [undefined], which arithmetic turns into NaN. *)
Definition get (l : list num) (i : nat) : num := nth i l NaN.

(** [arr[i]] where the index is itself a number. *)
Definition get_at (l : list num) (i : num) : num :=
  match index_of i with
  | Some k => get l k
  | None => NaN
  end.

(** [arr.slice (1)]. *)
Definition slice1 {A} (l : list A) : list A := tl l.

(** Equality of numbers as [Set] sees it (SameValueZero): NaN is equal
    to itself. *)
Definition num_eq_dec (a b : num) : {a = b} + {a <> b}.
Proof.
  destruct a as [x| | |], b as [y| | |];
    try (left; reflexivity); try (right; discriminate).
  destruct (Req_dec_T x y) as [e|n].
  - left; now subst.
  - right; intros H; injection H; exact n.
Defined.

(** [[...new Set (l)]]: the elements of [l] in order of first
    occurrence, [seen] being those already met. *)
Fixpoint uniq_from (seen l : list num) : list num :=
  match l with
  | [] => []
  | x :: l' =>
      if in_dec num_eq_dec x seen then uniq_from seen l'
      else x :: uniq_from (x :: seen) l'
  end.

Definition Set_of (l : list num) : list num := uniq_from [] l.

(* ================================================================= *)
(** ** Types of the service *)

Inductive OptionType := Call | Put.

Record Greeks := mkGreeks {
  delta : num;
  gamma : num;
  vega : num;
  theta : num;
  rho : num
}.

Record Priced := mkPriced {
  price : num;
  greeks : Greeks;
  d1 : num;
  d2 : num
}.

(** An option id is either the text [strike-maturity-type] of a chain
    option, kept as the triple it is printed from, or a fixed name. *)
Inductive OptionId :=
| ChainId (strike maturity : num) (type : OptionType)
| NamedId (name : string).

Record Option_ := mkOption {
  id : OptionId;
  strike : num;
  maturity : num;
  type : OptionType;
  bsmPrice : num;
  iv : num;
  opt_greeks : Greeks;
  opt_d1 : num;
  opt_d2 : num;
  bsmPriceHistVol : num;
  greeksHistVol : Greeks
}.

Record PortfolioPosition := mkPosition {
  quantity : num;
  pos_option : Option_
}.

Record SummaryStats := mkStats {
  dailyLogReturns : list num;
  annualizedVolatility : num;
  skewness : num;
  kurtosis : num
}.

Record VaRResult := mkVaR {
  parametric95 : num;
  parametric99 : num;
  historical95 : num;
  historical99 : num
}.

Inductive Action := Buy | Sell.

(** The message of a suggestion is the text
    [action quantity lots of the strike type @ maturity d]; it is kept
    as the values it prints. *)
Record GammaHedgeSuggestion := mkSuggestion {
  action : Action;
  sg_quantity : num;
  sg_option : Option_;
  message : Action * num * num * OptionType * num
}.

(** The label of a scenario is the text of [change * 100] with no
    decimals, followed by a percent sign; it is kept as that number. *)
Record PnLScenario := mkScenario {
  scenario : num;
  pnlUnhedged : num;
  pnlDeltaHedged : num
}.

Record Config := mkConfig {
  riskFreeRate : num;
  lotSize : num;
  startDate : string;
  endDate : string
}.

(** An [OptionChain] is an object keyed by maturity; it is kept as the
    list of its entries in property order, which is the order
    [Object.values] follows. *)
Definition OptionChain := list (num * list Option_).

Definition Object_values (c : OptionChain) : list (list Option_) := map snd c.

Definition flat {A} (l : list (list A)) : list A := List.concat l.

Open Scope num_scope.

(* ================================================================= *)
(** ** Core mathematical utilities *)

Module FinancialService.

(** Error function approximation. *)
Definition erf (x : num) : num :=
  let a1 := #0.254829592 in
  let a2 := #(-0.284496736) in
  let a3 := #1.421413741 in
  let a4 := #(-1.453152027) in
  let a5 := #1.061405429 in
  let p := #0.3275911 in
  let sign := if x >=? #0 then #1 else #(-1) in
  let x := Math_abs x in
  let t := #1 / (#1 + p * x) in
  let y := #1 - (((((a5 * t + a4) * t) + a3) * t + a2) * t + a1) * t
                * Math_exp (- x * x) in
  sign * y.

(** Standard normal cumulative distribution function. *)
Definition normCdf (x : num) : num :=
  #0.5 * (#1 + erf (x / Math_sqrt #2)).

(** Standard normal probability density function. *)
Definition normPdf (x : num) : num :=
  (#1 / Math_sqrt (#2 * Math_PI)) * Math_exp (- #0.5 * x * x).

(** Black-Scholes-Merton price and Greeks. *)
Definition bsm (S K T sigma r : num) (optionType : OptionType) : Priced :=
  if (T <=? #0) || (sigma <=? #0) then
    let fallbackPrice :=
      match optionType with
      | Call => Math_max #0 (S - K)
      | Put => Math_max #0 (K - S)
      end in
    let fallbackGreeks :=
      mkGreeks
        (match optionType with
         | Call => if S >? K then #1 else #0
         | Put => if S <? K then #(-1) else #0
         end) #0 #0 #0 #0 in
    mkPriced fallbackPrice fallbackGreeks PInf PInf
  else
    let d1 := (Math_log (S / K) + (r + #0.5 * sigma * sigma) * T)
              / (sigma * Math_sqrt T) in
    let d2 := d1 - sigma * Math_sqrt T in
    let N_d1 := normCdf d1 in
    let N_d2 := normCdf d2 in
    let N_minus_d1 := normCdf (- d1) in
    let N_minus_d2 := normCdf (- d2) in
    let N_prime_d1 := normPdf d1 in
    let gamma := N_prime_d1 / (S * sigma * Math_sqrt T) in
    let vega := S * N_prime_d1 * Math_sqrt T in
    match optionType with
    | Call =>
        let price := S * N_d1 - K * Math_exp (- r * T) * N_d2 in
        let delta := N_d1 in
        let theta := - (S * N_prime_d1 * sigma) / (#2 * Math_sqrt T)
                     - r * K * Math_exp (- r * T) * N_d2 in
        let rho := K * T * Math_exp (- r * T) * N_d2 in
        mkPriced price (mkGreeks delta gamma vega theta rho) d1 d2
    | Put =>
        let price := K * Math_exp (- r * T) * N_minus_d2 - S * N_minus_d1 in
        let delta := N_d1 - #1.0 in
        let theta := - (S * N_prime_d1 * sigma) / (#2 * Math_sqrt T)
                     + r * K * Math_exp (- r * T) * N_minus_d2 in
        let rho := - K * T * Math_exp (- r * T) * N_minus_d2 in
        mkPriced price (mkGreeks delta gamma vega theta rho) d1 d2
    end.

(* ================================================================= *)
(** ** Financial calculations *)

Definition calculateSummaryStatistics (prices : list num) : SummaryStats :=
  let returns := mapi (fun p i => Math_log (p / get prices i)) (slice1 prices) in
  let n := length returns in
  if (n <? 2)%nat then mkStats [] #0 #0 #0
  else
    let mean := fold_left (fun sum r => sum + r) returns #0 / of_nat n in
    let stdDev :=
      Math_sqrt (fold_left (fun sum r => sum + Math_pow (r - mean) 2) returns #0
                 / (of_nat n - #1)) in
    let annualizedVolatility := stdDev * Math_sqrt #252 in
    let m3 :=
      fold_left (fun sum r => sum + Math_pow (r - mean) 3) returns #0 / of_nat n in
    let skewness := m3 / Math_pow stdDev 3 in
    let m4 :=
      fold_left (fun sum r => sum + Math_pow (r - mean) 4) returns #0 / of_nat n in
    let kurtosis := m4 / Math_pow stdDev 4 - #3 in
    mkStats returns annualizedVolatility skewness kurtosis.

Definition maturities : list num := [#30; #60; #90].
Definition strikeMultipliers : list num := [#0.95; #0.98; #1; #1.02; #1.05].

Definition generatedStrikes (currentPrice : num) : list num :=
  map (fun m => Math_round (currentPrice * m)) strikeMultipliers.

(** Generated strikes joined with the strikes already held, made unique
    and put in order. *)
Definition strikes (currentPrice : num) (existingStrikes : list num) : list num :=
  sort_by (fun a b => a - b)
          (Set_of (generatedStrikes currentPrice ++ existingStrikes)).

Definition generateOptionChain
    (currentPrice histVolatility riskFreeRate : num)
    (existingStrikes : list num) : OptionChain :=
  let strikes := strikes currentPrice existingStrikes in
  let r := riskFreeRate / #100 in
  map (fun maturity =>
    (maturity,
     flat_map (fun strike =>
       let moneyness := Math_log (strike / currentPrice) in
       let iv := histVolatility
                 * (#1 + #0.2 * Math_pow moneyness 2 - #0.1 * moneyness) in
       map (fun type =>
         let T := maturity / #252 in
         let ivRes := bsm currentPrice strike T iv r type in
         let hvRes := bsm currentPrice strike T histVolatility r type in
         mkOption (ChainId strike maturity type) strike maturity type
                  (price ivRes) iv (greeks ivRes) (d1 ivRes) (d2 ivRes)
                  (price hvRes) (greeks hvRes))
         [Call; Put])
       strikes))
    maturities.

Definition calculatePortfolioGreeks (portfolio : list PortfolioPosition) : Greeks :=
  fold_left (fun acc pos =>
    mkGreeks (delta acc + quantity pos * delta (opt_greeks (pos_option pos)))
             (gamma acc + quantity pos * gamma (opt_greeks (pos_option pos)))
             (vega acc + quantity pos * vega (opt_greeks (pos_option pos)))
             (theta acc + quantity pos * theta (opt_greeks (pos_option pos)))
             (rho acc + quantity pos * rho (opt_greeks (pos_option pos))))
    portfolio (mkGreeks #0 #0 #0 #0 #0).


(** The portfolio re-priced at every historical price. *)
Definition pvSeries (portfolio : list PortfolioPosition)
    (stockPrices : list num) (config : Config) : list num :=
  map (fun S_t =>
    fold_left (fun totalValue pos =>
      let T := maturity (pos_option pos) / #252.0 in
      let r := riskFreeRate config / #100 in
      let price :=
        price (bsm S_t (strike (pos_option pos)) T (iv (pos_option pos)) r
                   (type (pos_option pos))) in
      totalValue + quantity pos * price * lotSize config)
      portfolio #0)
    stockPrices.

(** The finite simple returns of a value series. *)
Definition pvReturns (pvSeries : list num) : list num :=
  filter isFinite
    (mapi (fun p i => (p - get pvSeries i) / get pvSeries i) (slice1 pvSeries)).

Definition returnsMean (pvReturns : list num) : num :=
  fold_left (fun s r => s + r) pvReturns #0 / of_nat (length pvReturns).

Definition returnsStd (pvReturns : list num) : num :=
  Math_sqrt
    (fold_left (fun s r => s + Math_pow (r - returnsMean pvReturns) 2) pvReturns #0
     / (of_nat (length pvReturns) - #1)).

Definition calculatePortfolioVaR (portfolio : list PortfolioPosition)
    (stockPrices : list num) (config : Config) : VaRResult :=
  if (length portfolio =? 0)%nat || (length stockPrices <? 2)%nat then
    mkVaR #0 #0 #0 #0
  else
    let pvSeries := pvSeries portfolio stockPrices config in
    let pvReturns := pvReturns pvSeries in
    if (length pvReturns <? 2)%nat then mkVaR #0 #0 #0 #0
    else
      let lastPortfolioValue := get pvSeries (length pvSeries - 1) in
      let returnsMean := returnsMean pvReturns in
      let returnsStd := returnsStd pvReturns in
      let parametric95 :=
        - (returnsMean + normCdf #0.05 * returnsStd) * lastPortfolioValue in
      let parametric99 :=
        - (returnsMean + normCdf #0.01 * returnsStd) * lastPortfolioValue in
      let sorted := sort_by (fun a b => a - b) pvReturns in
      let historical95 :=
        - get_at sorted (Math_floor (#0.05 * of_nat (length sorted)))
        * lastPortfolioValue in
      let historical99 :=
        - get_at sorted (Math_floor (#0.01 * of_nat (length sorted)))
        * lastPortfolioValue in
      mkVaR parametric95 parametric99 historical95 historical99.

Definition hedgePortfolio (portfolio : list PortfolioPosition) (lotSize : num)
    : num :=
  let greeks := calculatePortfolioGreeks portfolio in
  let sharesToHedge := - delta greeks * lotSize in
  sharesToHedge.

(** The candidates of the gamma hedge: the options of shortest maturity,
    by rising absolute gamma. *)
Definition gammaCandidates (optionChain : OptionChain) : list Option_ :=
  let allOptions := flat (Object_values optionChain) in
  sort_by (fun a b => Math_abs (gamma (opt_greeks a))
                      - Math_abs (gamma (opt_greeks b)))
          (filter (fun o => maturity o =? #30) allOptions).

Definition calculateGammaHedge (portfolio : list PortfolioPosition)
    (optionChain : OptionChain) : option GammaHedgeSuggestion :=
  if (length portfolio =? 0)%nat then None
  else
    let portfolioGreeks := calculatePortfolioGreeks portfolio in
    if Math_abs (gamma portfolioGreeks) <? #0.000001 then None
    else
      match pop (gammaCandidates optionChain) with
      | None => None
      | Some atmOption =>
          let quantity :=
            - gamma portfolioGreeks / gamma (opt_greeks atmOption) in
          let action := if quantity >? #0 then Buy else Sell in
          Some (mkSuggestion action (Math_abs (Math_round quantity)) atmOption
                  (action, Math_abs (Math_round quantity), strike atmOption,
                   type atmOption, maturity atmOption))
      end.

Definition scenarios : list num := [#(-0.02); #(-0.01); #0.0; #0.01; #0.02].

Definition calculatePnLScenarios (portfolio : list PortfolioPosition)
    (lastPrice : num) (config : Config) : list PnLScenario :=
  let r := riskFreeRate config / #100 in
  let currentValue :=
    fold_left (fun sum pos => sum + quantity pos * bsmPrice (pos_option pos))
              portfolio #0 in
  let deltaHedgeShares := hedgePortfolio portfolio #1 in
  map (fun change =>
    let newPrice := lastPrice * (#1 + change) in
    let newValue :=
      fold_left (fun sum pos =>
        let T := maturity (pos_option pos) / #252.0 in
        let price :=
          price (bsm newPrice (strike (pos_option pos)) T (iv (pos_option pos)) r
                     (type (pos_option pos))) in
        sum + quantity pos * price)
        portfolio #0 in
    let pnlUnhedged := (newValue - currentValue) * lotSize config in
    let hedgePnL := deltaHedgeShares * (newPrice - lastPrice) in
    let pnlDeltaHedged := pnlUnhedged + hedgePnL in
    mkScenario (change * #100) pnlUnhedged pnlDeltaHedged)
    scenarios.

End FinancialService.

(* ================================================================= *)
(** ** The analytic functions on finite arguments

    What [erf], [normCdf], [normPdf] and the analytic branch of [bsm]
    compute when every argument is finite, as functions on the reals. *)

Module Analytic.
Open Scope R_scope.

Definition poly (t : R) : R :=
  ((((1.061405429 * t + -1.453152027) * t) + 1.421413741) * t
   + -0.284496736) * t + 0.254829592.

Definition erf (x : R) : R :=
  (if Rle_dec 0 x then 1 else -1)
  * (1 - poly (1 / (1 + 0.3275911 * Rabs x))
         * (1 / (1 + 0.3275911 * Rabs x)) * exp (- Rabs x * Rabs x)).

Definition normCdf (x : R) : R := 0.5 * (1 + erf (x / sqrt 2)).

Definition normPdf (x : R) : R :=
  (1 / sqrt (2 * PI)) * exp (- (0.5) * x * x).

Definition D1 (S K T sigma r : R) : R :=
  (ln (S / K) + (r + 0.5 * sigma * sigma) * T) / (sigma * sqrt T).

Definition D2 (S K T sigma r : R) : R :=
  D1 S K T sigma r - sigma * sqrt T.

End Analytic.

(* ================================================================= *)
(** ** The quantities the specification names *)

Module Spec.
Import FinancialService.
Open Scope num_scope.

(** Put-call parity gap: call price minus put price, minus
    [S - K e^(-rT)]. *)
Definition parityGap (S K T sigma r : num) : num :=
  (price (bsm S K T sigma r Call) - price (bsm S K T sigma r Put))
  - (S - K * Math_exp (- r * T)).

(** Sum of a sequence of numbers. *)
Fixpoint total (l : list num) : num :=
  match l with
  | [] => #0
  | x :: l' => x + total l'
  end.

Definition mean (l : list num) : num := total l / of_nat (length l).

(** Sample standard deviation: the squared deviations are divided by
    [n - 1]. *)
Definition sampleStdDev (l : list num) : num :=
  Math_sqrt (total (map (fun r => (r - mean l) * (r - mean l)) l)
             / (of_nat (length l) - #1)).

(** Simple returns [(V[t] - V[t-1]) / V[t-1]] of a value series. *)
Fixpoint simpleReturns (V : list num) : list num :=
  match V with
  | v0 :: ((v1 :: _) as V') => (v1 - v0) / v0 :: simpleReturns V'
  | _ => []
  end.

Definition finiteReturns (V : list num) : list num :=
  filter isFinite (simpleReturns V).

(** Price of the option of a position at spot [S] and rate [r], with
    the option's own volatility and maturity. *)
Definition repricedOption (S r : num) (pos : PortfolioPosition) : num :=
  price (bsm S (strike (pos_option pos)) (maturity (pos_option pos) / #252)
             (iv (pos_option pos)) r (type (pos_option pos))).

(** The portfolio re-priced at spot [S], in currency units. *)
Definition repricedValue (portfolio : list PortfolioPosition) (config : Config)
    (S : num) : num :=
  total (map (fun pos =>
                quantity pos
                * repricedOption S (riskFreeRate config / #100) pos
                * lotSize config) portfolio).

Definition valueSeries (portfolio : list PortfolioPosition)
    (stockPrices : list num) (config : Config) : list num :=
  map (repricedValue portfolio config) stockPrices.

Definition lastValue (V : list num) : num := last V NaN.

(** Empirical quantile of the returns at level [c]: the element of
    index [floor (c * n)] of the returns in ascending order. *)
Definition quantileReturn (c : num) (R : list num) : num :=
  get_at (sort_by (fun a b => a - b) R) (Math_floor (c * of_nat (length R))).

(** The portfolio re-priced at spot [S], per lot. *)
Definition repricedMark (portfolio : list PortfolioPosition) (r S : num) : num :=
  total (map (fun pos => quantity pos * repricedOption S r pos) portfolio).

(** The current mark: quantity times stored price, summed. *)
Definition currentMark (portfolio : list PortfolioPosition) : num :=
  total (map (fun pos => quantity pos * bsmPrice (pos_option pos)) portfolio).

(** Portfolio delta: quantity times option delta, summed. *)
Definition portfolioDelta (portfolio : list PortfolioPosition) : num :=
  total (map (fun pos => quantity pos * delta (opt_greeks (pos_option pos)))
             portfolio).

(** Portfolio gamma: quantity times option gamma, summed. *)
Definition portfolioGamma (portfolio : list PortfolioPosition) : num :=
  total (map (fun pos => quantity pos * gamma (opt_greeks (pos_option pos)))
             portfolio).

(** The scenario of one spot shock. *)
Definition shockScenario (portfolio : list PortfolioPosition)
    (lastPrice : num) (config : Config) (shock : num) : PnLScenario :=
  let newPrice := lastPrice * (#1 + shock) in
  let unhedged :=
    (repricedMark portfolio (riskFreeRate config / #100) newPrice
     - currentMark portfolio) * lotSize config in
  mkScenario (shock * #100) unhedged
             (unhedged + - portfolioDelta portfolio * (newPrice - lastPrice)).

(** Absolute gamma of an option. *)
Definition absGamma (o : Option_) : num := Math_abs (gamma (opt_greeks o)).

(** The options of the chain with a maturity of 30 days, in iteration
    order. *)
Definition thirtyDay (optionChain : OptionChain) : list Option_ :=
  filter (fun o => maturity o =? #30) (flat (Object_values optionChain)).

(** [o] is the last option of largest absolute gamma in [l]: nothing
    before it is larger, everything after it is strictly smaller. *)
Definition lastLargest (l : list Option_) (o : Option_) : Prop :=
  exists l1 l2 : list Option_,
    l = (l1 ++ o :: l2)%list /\
    (forall x, In x l1 -> (absGamma x <=? absGamma o) = true) /\
    (forall x, In x l2 -> (absGamma x <? absGamma o) = true).

(** The strikes a chain is built on: the five rounded multiples of the
    current price, and the strikes already held. *)
Definition mergedStrikes (currentPrice : num) (existingStrikes : list num)
    : list num :=
  ([Math_round (currentPrice * #0.95); Math_round (currentPrice * #0.98);
    Math_round (currentPrice * #1); Math_round (currentPrice * #1.02);
    Math_round (currentPrice * #1.05)] ++ existingStrikes)%list.

(** Number of options of [l] with strike [k] and type [ty]. *)
Definition occurrences (l : list Option_) (k : num) (ty : OptionType) : nat :=
  length (filter (fun o =>
                    if num_eq_dec (strike o) k then
                      match type o, ty with
                      | Call, Call | Put, Put => true
                      | _, _ => false
                      end
                    else false) l).

End Spec.

(* ================================================================= *)
(** ** Sample data *)

Module Sample.
Open Scope num_scope.

(** The stock leg that [exportDataToCSV] adds to a portfolio. *)
Definition stockHedge (lastPrice : num) : Option_ :=
  mkOption (NamedId "STOCK_HEDGE") #0 #0 Call lastPrice #0
           (mkGreeks #1 #0 #0 #0 #0) #0 #0 #0
           (mkGreeks #0 #0 #0 #0 #0).

Definition stockOnly (lastPrice : num) : list PortfolioPosition :=
  [mkPosition #1 (stockHedge lastPrice)].

Definition unitLots : Config := mkConfig #7 #1 "2024-01-01" "2024-12-31".

(** A chain option with the given strike, maturity and gamma. *)
Definition callWith (strike maturity gamma : num) : Option_ :=
  mkOption (ChainId strike maturity Call) strike maturity Call #2.5 #0.2
           (mkGreeks #0.5 gamma #10 #(-5) #4) #0.1 #0 #2.5
           (mkGreeks #0.5 gamma #10 #(-5) #4).

Definition optA : Option_ := callWith #100 #30 #0.05.
Definition optB : Option_ := callWith #105 #30 #0.05.
Definition optC : Option_ := callWith #100 #60 #0.09.

(** Two 30-day options of equal gamma, and a 60-day option of larger
    gamma. *)
Definition tiedChain : OptionChain := [(#30, [optA; optB]); (#60, [optC])].

(** A chain without 30-day options. *)
Definition longChain : OptionChain := [(#60, [optC])].

(** A chain whose only 30-day option has no gamma. *)
Definition flatChain : OptionChain := [(#30, [callWith #100 #30 #0])].

(** Ten lots of a 90-day option of gamma 0.02. *)
Definition tenLots : list PortfolioPosition :=
  [mkPosition #10 (callWith #100 #90 #0.02)].

Definition rising : list num := [#100; #110; #121].
Definition falling : list num := [#121; #110; #100].

End Sample.

(* ================================================================= *)
(** ** Further quantities *)

Module More.
Import FinancialService.
Open Scope num_scope.

(** Consecutive pairs of a series combined by [F], later element
    first. *)
Fixpoint pairwise (F : num -> num -> num) (P : list num) : list num :=
  match P with
  | p0 :: ((p1 :: _) as P') => F p1 p0 :: pairwise F P'
  | _ => []
  end.

(** Log returns [ln (p[i+1] / p[i])] of a price series. *)
Definition logReturns (prices : list num) : list num :=
  pairwise (fun p1 p0 => Math_log (p1 / p0)) prices.

(** Sum of a list of reals. *)
Definition sumR (l : list R) : R := fold_right Rplus 0%R l.

(** The five Greeks of a portfolio as quantity-weighted sums. *)
Definition weighted (g : Greeks -> num) (portfolio : list PortfolioPosition)
    : num :=
  Spec.total (map (fun pos => quantity pos * g (opt_greeks (pos_option pos)))
                  portfolio).

(** Component-wise sum of two sets of Greeks. *)
Definition addGreeks (a b : Greeks) : Greeks :=
  mkGreeks (delta a + delta b) (gamma a + gamma b) (vega a + vega b)
           (theta a + theta b) (rho a + rho b).

(** The smile: implied volatility assigned to a strike. *)
Definition smileIv (currentPrice histVolatility strike : num) : num :=
  histVolatility
  * (#1 + #0.2 * Math_pow (Math_log (strike / currentPrice)) 2
     - #0.1 * Math_log (strike / currentPrice)).

(** The chain option of a strike, a maturity and a type. *)
Definition chainOption (currentPrice histVolatility riskFreeRate : num)
    (maturity strike : num) (type : OptionType) : Option_ :=
  let iv := smileIv currentPrice histVolatility strike in
  let T := maturity / #252 in
  let r := riskFreeRate / #100 in
  let ivRes := bsm currentPrice strike T iv r type in
  let hvRes := bsm currentPrice strike T histVolatility r type in
  mkOption (ChainId strike maturity type) strike maturity type
           (price ivRes) iv (greeks ivRes) (d1 ivRes) (d2 ivRes)
           (price hvRes) (greeks hvRes).

(** Ascending order of numbers. *)
Definition ascending (l : list num) : Prop :=
  StronglySorted (fun a b => (a <? b) = true) l.

Definition nondecreasing (l : list num) : Prop :=
  StronglySorted (fun a b => (a <=? b) = true) l.

End More.

(* ================================================================= *)
(** ** The portfolio panel and the chain table

    The pure parts of the components [PortfolioAnalysis] and
    [OptionChainTable]: the stock leg added for the hedged figures, and
    the state updates of the portfolio. *)

Module PortfolioAnalysis.
Import FinancialService.
Open Scope num_scope.

(** The stock leg of the hedged portfolio. *)
Definition hedgePosition (lastPrice deltaHedgeShares : num)
    : PortfolioPosition :=
  mkPosition deltaHedgeShares
    (mkOption (NamedId "STOCK_HEDGE") #0 #0 Call lastPrice #0
              (mkGreeks #1 #0 #0 #0 #0) #0 #0 lastPrice
              (mkGreeks #1 #0 #0 #0 #0)).

(** [[...portfolio, hedgePosition]] with the shares of
    [hedgePortfolio (portfolio, config.lotSize)]. *)
Definition hedgedPortfolio (portfolio : list PortfolioPosition)
    (lastPrice : num) (config : Config) : list PortfolioPosition :=
  let deltaHedgeShares := hedgePortfolio portfolio (lotSize config) in
  portfolio ++ [hedgePosition lastPrice deltaHedgeShares].

(** [{ ...config, lotSize: 1 }]. *)
Definition hedgedVaRConfig (config : Config) : Config :=
  mkConfig (riskFreeRate config) #1 (startDate config) (endDate config).

Definition hedgedVaR (portfolio : list PortfolioPosition) (lastPrice : num)
    (stockPrices : list num) (config : Config) : VaRResult :=
  calculatePortfolioVaR (hedgedPortfolio portfolio lastPrice config)
                        stockPrices (hedgedVaRConfig config).

(** Equality of ids, as [===] decides it on their text. *)
Definition OptionId_eq_dec (a b : OptionId) : {a = b} + {a <> b}.
Proof.
  decide equality;
    try apply string_dec; try apply num_eq_dec; decide equality.
Defined.

Definition same_id (p : PortfolioPosition) (i : OptionId) : bool :=
  if OptionId_eq_dec (id (pos_option p)) i then true else false.

(** [prev.filter (p => p.option.id !== optionId)]. *)
Definition handleRemovePosition (prev : list PortfolioPosition)
    (optionId : OptionId) : list PortfolioPosition :=
  filter (fun p => negb (same_id p optionId)) prev.

End PortfolioAnalysis.

Module OptionChainTable.
Import PortfolioAnalysis.
Open Scope num_scope.

Definition handleUpdateQuantity (prevPortfolio : list PortfolioPosition)
    (opt : Option_) (change : num) : list PortfolioPosition :=
  match find (fun p => same_id p (id opt)) prevPortfolio with
  | Some existingPosition =>
      let newQuantity := quantity existingPosition + change in
      if newQuantity =? #0 then
        filter (fun p => negb (same_id p (id opt))) prevPortfolio
      else
        map (fun p => if same_id p (id opt)
                      then mkPosition newQuantity (pos_option p) else p)
            prevPortfolio
  | None =>
      if negb (change =? #0) then prevPortfolio ++ [mkPosition change opt]
      else prevPortfolio
  end.

Definition getPositionQuantity (portfolio : list PortfolioPosition)
    (opt : option Option_) : num :=
  match opt with
  | None => #0
  | Some o =>
      match find (fun p => same_id p (id o)) portfolio with
      | Some position => quantity position
      | None => #0
      end
  end.

End OptionChainTable.

(* ================================================================= *)
(** ** The simulated quotes

    The generator [mulberry32] and [generateLiveStockData] of the
    service.  The 32-bit operators act on integers; a closure returned
    by [mulberry32] is its captured variable, threaded through the
    calls. *)

Module Int32.
Open Scope Z_scope.

Definition ToInt32 (z : Z) : Z := (z + 2 ^ 31) mod 2 ^ 32 - 2 ^ 31.
Definition ToUint32 (z : Z) : Z := z mod 2 ^ 32.

(** [a | b], [a ^ b], [a >>> n] and [Math.imul (a, b)]. *)
Definition or (a b : Z) : Z := ToInt32 (Z.lor (ToInt32 a) (ToInt32 b)).
Definition xor (a b : Z) : Z := ToInt32 (Z.lxor (ToInt32 a) (ToInt32 b)).
Definition ushr (a n : Z) : Z := Z.shiftr (ToUint32 a) (n mod 32).
Definition imul (a b : Z) : Z := ToInt32 (ToInt32 a * ToInt32 b).

End Int32.

Record LiveStockData := mkLive {
  live_open : num;
  live_high : num;
  live_low : num;
  live_close : num;
  live_previousClose : num;
  live_volume : num
}.

Definition Math_min (a b : num) : num :=
  match a, b with
  | NaN, _ | _, NaN => NaN
  | _, _ => if le a b then a else b
  end.

Module Simulation.
Open Scope num_scope.

(** One call of the function returned by [mulberry32]: the new value of
    the captured variable and the number returned. *)
Definition mulberry32_call (a : Z) : Z * num :=
  let a := Int32.or a 0 in
  let a := Int32.or (a + 0x6D2B79F5)%Z 0 in
  let t := Int32.imul (Int32.xor a (Int32.ushr a 15)) (Int32.or 1 a) in
  let t := Int32.xor (t + Int32.imul (Int32.xor t (Int32.ushr t 7))
                                      (Int32.or 61 t))%Z t in
  (a, Fin (IZR (Int32.ushr (Int32.xor t (Int32.ushr t 14)) 0) / 4294967296)).

(** The captured variable after [n] calls. *)
Fixpoint mulberry32_state (a : Z) (n : nat) : Z :=
  match n with
  | O => a
  | S n' => fst (mulberry32_call (mulberry32_state a n'))
  end.

(** The number returned by call [n + 1]. *)
Definition mulberry32_output (a : Z) (n : nat) : num :=
  snd (mulberry32_call (mulberry32_state a n)).

(** Sum of the character codes of a ticker. *)
Definition charCodeSum (ticker : string) : Z :=
  fold_left (fun acc char => (acc + Z.of_nat (Ascii.nat_of_ascii char))%Z)
            (list_ascii_of_string ticker) 0%Z.

(** [generateLiveStockData]; [dayOfMonth] is [new Date ().getDate ()],
    and the volume is kept as the number its text is printed from. *)
Definition generateLiveStockData (ticker : string) (lastPrice : num)
    (dayOfMonth : Z) : LiveStockData :=
  let seed := (charCodeSum ticker + dayOfMonth)%Z in
  let volatility := #0.025 in
  let '(a1, u1) := mulberry32_call seed in
  let change := lastPrice * volatility * (u1 - #0.5) in
  let '(a2, u2) := mulberry32_call a1 in
  let open := lastPrice - change + (u2 - #0.5) * lastPrice * #0.01 in
  let '(a3, u3) := mulberry32_call a2 in
  let high := Math_max open lastPrice + u3 * lastPrice * #0.015 in
  let '(a4, u4) := mulberry32_call a3 in
  let low := Math_min open lastPrice - u4 * lastPrice * #0.015 in
  let previousClose := lastPrice / (#1 + change / lastPrice) in
  let '(a5, u5) := mulberry32_call a4 in
  let volume := Math_floor (#100000 + u5 * #5000000) in
  mkLive open high low lastPrice previousClose volume.

End Simulation.

(* ================================================================= *)
(** ** Arithmetic of finite numbers *)

Open Scope R_scope.

Lemma add_Fin x y : add (Fin x) (Fin y) = Fin (x + y).
Proof. reflexivity. Qed.

Lemma sub_Fin x y : sub (Fin x) (Fin y) = Fin (x - y).
Proof. reflexivity. Qed.

Lemma mul_Fin x y : mul (Fin x) (Fin y) = Fin (x * y).
Proof. reflexivity. Qed.

Lemma neg_Fin x : neg (Fin x) = Fin (- x).
Proof. reflexivity. Qed.

Lemma div_Fin x y : y <> 0 -> div (Fin x) (Fin y) = Fin (x / y).
Proof.
  intros Hy; unfold div.
  destruct (Req_dec_T y 0) as [e|_]; [contradiction|reflexivity].
Qed.

Lemma div_Fin_zero x : div (Fin x) (Fin 0) = inf_of_sign (Rsign x).
Proof.
  unfold div. destruct (Req_dec_T 0 0) as [_|n]; [reflexivity|now elim n].
Qed.

Lemma Rleb_true x y : x <= y -> Rleb x y = true.
Proof. intros H; unfold Rleb; destruct (Rle_dec x y); [reflexivity|contradiction]. Qed.

Lemma Rleb_false x y : y < x -> Rleb x y = false.
Proof. intros H; unfold Rleb; destruct (Rle_dec x y); [lra|reflexivity]. Qed.

Lemma Rltb_true x y : x < y -> Rltb x y = true.
Proof. intros H; unfold Rltb; destruct (Rlt_dec x y); [reflexivity|contradiction]. Qed.

Lemma Rltb_false x y : y <= x -> Rltb x y = false.
Proof. intros H; unfold Rltb; destruct (Rlt_dec x y); [lra|reflexivity]. Qed.

Lemma Reqb_true x : Reqb x x = true.
Proof. unfold Reqb; destruct (Req_dec_T x x) as [_|n]; [reflexivity|now elim n]. Qed.

Lemma Reqb_false x y : x <> y -> Reqb x y = false.
Proof. intros H; unfold Reqb; destruct (Req_dec_T x y); [contradiction|reflexivity]. Qed.

Lemma Rsign_pos x : 0 < x -> Rsign x = Gt.
Proof. intros H; unfold Rsign; destruct (Rlt_dec 0 x); [reflexivity|contradiction]. Qed.

Lemma Rsign_zero : Rsign 0 = Eq.
Proof.
  unfold Rsign; destruct (Rlt_dec 0 0); [lra|reflexivity].
Qed.

Lemma sqrt_Fin x : 0 <= x -> Math_sqrt (Fin x) = Fin (sqrt x).
Proof. intros H; unfold Math_sqrt; destruct (Rlt_dec x 0); [lra|reflexivity]. Qed.

Lemma log_Fin x : 0 < x -> Math_log (Fin x) = Fin (ln x).
Proof. intros H; unfold Math_log; destruct (Rlt_dec 0 x); [reflexivity|contradiction]. Qed.

Lemma max_Fin x y : Math_max (Fin x) (Fin y) = Fin (Rmax x y).
Proof.
  unfold Math_max, le, Rleb, Rmax.
  destruct (Rle_dec x y); reflexivity.
Qed.

Ltac fin_arith :=
  repeat first
    [ rewrite mul_Fin | rewrite add_Fin | rewrite sub_Fin | rewrite neg_Fin
    | progress cbn [Math_exp Math_abs] ].

Lemma sqrt2_neq_0 : sqrt 2 <> 0.
Proof. pose proof (sqrt_lt_R0 2); lra. Qed.

Lemma sqrt2PI_pos : 0 < sqrt (2 * PI).
Proof. apply sqrt_lt_R0; pose proof PI_RGT_0; lra. Qed.

Lemma erf_Fin x : FinancialService.erf (Fin x) = Fin (Analytic.erf x).
Proof.
  unfold FinancialService.erf, Analytic.erf, Analytic.poly.
  cbv zeta. fin_arith.
  rewrite div_Fin by (pose proof (Rabs_pos x); lra).
  fin_arith.
  unfold ge, le, Rleb.
  destruct (Rle_dec 0 x); rewrite mul_Fin; reflexivity.
Qed.

Lemma normCdf_Fin x :
  FinancialService.normCdf (Fin x) = Fin (Analytic.normCdf x).
Proof.
  unfold FinancialService.normCdf, Analytic.normCdf.
  rewrite sqrt_Fin by lra.
  rewrite div_Fin by apply sqrt2_neq_0.
  rewrite erf_Fin. reflexivity.
Qed.

Lemma normPdf_Fin x :
  FinancialService.normPdf (Fin x) = Fin (Analytic.normPdf x).
Proof.
  unfold FinancialService.normPdf, Analytic.normPdf, Math_PI.
  rewrite mul_Fin, sqrt_Fin by (pose proof PI_RGT_0; lra).
  rewrite div_Fin by (pose proof sqrt2PI_pos; lra).
  fin_arith. reflexivity.
Qed.


(* ================================================================= *)
(** ** The pricer on finite arguments *)

Import FinancialService.

Lemma guard_false T sigma :
  0 < T -> 0 < sigma -> (le (Fin T) (Fin 0) || le (Fin sigma) (Fin 0))%bool = false.
Proof.
  intros HT Hs. unfold le. now rewrite !Rleb_false by assumption.
Qed.

Ltac nonzero :=
  apply Rgt_not_eq;
  first [ lra | repeat apply Rmult_lt_0_compat; lra | nra ].

Ltac bsm_arith HS HK HT Hs :=
  pose proof (sqrt_lt_R0 _ HT) as HsqT;
  assert (HSK : 0 < _ / _) by (apply (Rdiv_lt_0_compat _ _ HS HK));
  unfold bsm; rewrite (guard_false HT Hs); cbv zeta;
  rewrite (sqrt_Fin (x:=_)) by lra;
  rewrite (div_Fin _ (y:=_)) by nonzero;
  rewrite log_Fin by exact HSK;
  fin_arith;
  rewrite !div_Fin by nonzero;
  fin_arith;
  rewrite ?normCdf_Fin, ?normPdf_Fin;
  fin_arith;
  rewrite ?div_Fin by nonzero;
  fin_arith.

Lemma bsm_Call_Fin S K T sigma r :
  0 < S -> 0 < K -> 0 < T -> 0 < sigma ->
  let d1 := Analytic.D1 S K T sigma r in
  let d2 := Analytic.D2 S K T sigma r in
  bsm (Fin S) (Fin K) (Fin T) (Fin sigma) (Fin r) Call =
  mkPriced
    (Fin (S * Analytic.normCdf d1 - K * exp (- r * T) * Analytic.normCdf d2))
    (mkGreeks
       (Fin (Analytic.normCdf d1))
       (Fin (Analytic.normPdf d1 / (S * sigma * sqrt T)))
       (Fin (S * Analytic.normPdf d1 * sqrt T))
       (Fin (- (S * Analytic.normPdf d1 * sigma) / (2 * sqrt T)
             - r * K * exp (- r * T) * Analytic.normCdf d2))
       (Fin (K * T * exp (- r * T) * Analytic.normCdf d2)))
    (Fin d1) (Fin d2).
Proof.
  intros HS HK HT Hs d1 d2.
  bsm_arith HS HK HT Hs.
  reflexivity.
Qed.

Lemma bsm_Put_Fin S K T sigma r :
  0 < S -> 0 < K -> 0 < T -> 0 < sigma ->
  let d1 := Analytic.D1 S K T sigma r in
  let d2 := Analytic.D2 S K T sigma r in
  bsm (Fin S) (Fin K) (Fin T) (Fin sigma) (Fin r) Put =
  mkPriced
    (Fin (K * exp (- r * T) * Analytic.normCdf (- d2)
          - S * Analytic.normCdf (- d1)))
    (mkGreeks
       (Fin (Analytic.normCdf d1 - 1.0))
       (Fin (Analytic.normPdf d1 / (S * sigma * sqrt T)))
       (Fin (S * Analytic.normPdf d1 * sqrt T))
       (Fin (- (S * Analytic.normPdf d1 * sigma) / (2 * sqrt T)
             + r * K * exp (- r * T) * Analytic.normCdf (- d2)))
       (Fin (- K * T * exp (- r * T) * Analytic.normCdf (- d2))))
    (Fin d1) (Fin d2).
Proof.
  intros HS HK HT Hs d1 d2.
  bsm_arith HS HK HT Hs.
  reflexivity.
Qed.

(* ================================================================= *)
(** ** Degenerate pricing *)

Unset Implicit Arguments.

(** The fallback branch of [bsm] on arbitrary numbers. *)
Lemma bsm_fallback (S K T sigma r : num) (ty : OptionType) :
  (T <=? Fin 0)%num = true \/ (sigma <=? Fin 0)%num = true ->
  bsm S K T sigma r ty =
  mkPriced
    (match ty with
     | Call => Math_max (Fin 0) (S - K)
     | Put => Math_max (Fin 0) (K - S)
     end)
    (mkGreeks
       (match ty with
        | Call => if (S >? K)%num then Fin 1 else Fin 0
        | Put => if (S <? K)%num then Fin (-1) else Fin 0
        end) (Fin 0) (Fin 0) (Fin 0) (Fin 0))
    PInf PInf.
Proof.
  intros H. unfold bsm.
  assert (G : ((T <=? Fin 0)%num || (sigma <=? Fin 0)%num)%bool = true)
    by (apply orb_true_iff; exact H).
  rewrite G. reflexivity.
Qed.

(** The fallback branch at a finite spot and strike. *)
Lemma bsm_fallback_real (S K : R) (T sigma r : num) :
  (T <=? Fin 0)%num = true \/ (sigma <=? Fin 0)%num = true ->
  bsm (Fin S) (Fin K) T sigma r Call =
    mkPriced (Fin (Rmax 0 (S - K)))
      (mkGreeks (Fin (if Rlt_dec K S then 1 else 0))
                (Fin 0) (Fin 0) (Fin 0) (Fin 0))
      PInf PInf
  /\
  bsm (Fin S) (Fin K) T sigma r Put =
    mkPriced (Fin (Rmax 0 (K - S)))
      (mkGreeks (Fin (if Rlt_dec S K then -1 else 0))
                (Fin 0) (Fin 0) (Fin 0) (Fin 0))
      PInf PInf.
Proof.
  intros H. rewrite !(fun ty => bsm_fallback (Fin S) (Fin K) T sigma r ty H).
  rewrite !sub_Fin, !max_Fin. unfold gt, lt, Rltb.
  split; [destruct (Rlt_dec K S) | destruct (Rlt_dec S K)]; reflexivity.
Qed.

(** C2.  Degenerate case of the pricer: whenever [T <= 0] or
    [sigma <= 0], for all spot and strike values, [bsm] returns the
    intrinsic value ([max (0, S - K)] for a call, [max (0, K - S)] for a
    put), a delta of 1 or 0 for a call ([S > K] or not) and of -1 or 0
    for a put ([S < K] or not), zero gamma, vega, theta and rho, and
    [d1 = d2 = +Infinity]. *)
Theorem bsm_degenerate (T sigma r : num) :
  (T <=? Fin 0)%num = true \/ (sigma <=? Fin 0)%num = true ->
  (forall (S K : num) (ty : OptionType),
     bsm S K T sigma r ty =
     mkPriced
       (match ty with
        | Call => Math_max (Fin 0) (S - K)
        | Put => Math_max (Fin 0) (K - S)
        end)
       (mkGreeks
          (match ty with
           | Call => if (S >? K)%num then Fin 1 else Fin 0
           | Put => if (S <? K)%num then Fin (-1) else Fin 0
           end) (Fin 0) (Fin 0) (Fin 0) (Fin 0))
       PInf PInf) /\
  (forall S K : R,
     bsm (Fin S) (Fin K) T sigma r Call =
       mkPriced (Fin (Rmax 0 (S - K)))
         (mkGreeks (Fin (if Rlt_dec K S then 1 else 0))
                   (Fin 0) (Fin 0) (Fin 0) (Fin 0))
         PInf PInf
     /\
     bsm (Fin S) (Fin K) T sigma r Put =
       mkPriced (Fin (Rmax 0 (K - S)))
         (mkGreeks (Fin (if Rlt_dec S K then -1 else 0))
                   (Fin 0) (Fin 0) (Fin 0) (Fin 0))
         PInf PInf).
Proof.
  intros H. split.
  - intros S K ty. now apply bsm_fallback.
  - intros S K. now apply bsm_fallback_real.
Qed.

Lemma bsm_degenerate_witness :
  (Fin 0 <=? Fin 0)%num = true /\
  price (bsm (Fin 100) (Fin 90) (Fin 0) (Fin 0.2) (Fin 0.05) Call)
  = Fin (Rmax 0 (100 - 90)).
Proof.
  assert (H : (Fin 0 <=? Fin 0)%num = true) by (apply Rleb_true; lra).
  split; [exact H|].
  destruct (proj2 (bsm_degenerate (Fin 0) (Fin 0.2) (Fin 0.05) (or_introl H))
                  100 90) as [HC _].
  rewrite HC. reflexivity.
Defined.

(* ================================================================= *)
(** ** The error-function approximation *)

Lemma aerf_opp y : y <> 0 -> Analytic.erf (- y) = - Analytic.erf y.
Proof.
  intros Hy. unfold Analytic.erf. rewrite Rabs_Ropp.
  destruct (Rle_dec 0 (- y)), (Rle_dec 0 y); try lra; ring.
Qed.

Lemma aerf_0 : Analytic.erf 0 = 0.000000001.
Proof.
  unfold Analytic.erf. rewrite Rabs_R0.
  destruct (Rle_dec 0 0) as [_|n]; [|lra].
  replace (1 / (1 + 0.3275911 * 0)) with 1 by (field; lra).
  replace (- 0 * 0) with 0 by ring.
  rewrite exp_0. unfold Analytic.poly. lra.
Qed.

Lemma poly_bounds t : 0 <= t <= 1 -> 0 <= Analytic.poly t <= 1.4.
Proof. intros H. unfold Analytic.poly. split; nra. Qed.

Lemma exp_neg_sq u : 0 < exp (- u * u) <= 1.
Proof.
  split; [apply exp_pos|].
  destruct (Req_dec (- u * u) 0) as [e|n].
  - rewrite e, exp_0. lra.
  - rewrite <- exp_0. left. apply exp_increasing. nra.
Qed.

Lemma aerf_bounds y : -1 <= Analytic.erf y <= 1.
Proof.
  unfold Analytic.erf.
  pose proof (Rabs_pos y) as Hu.
  set (u := Rabs y) in *.
  assert (Ht : 0 < 1 / (1 + 0.3275911 * u) <= 1).
  { split.
    - apply Rdiv_lt_0_compat; lra.
    - apply Rmult_le_reg_r with (1 + 0.3275911 * u); [lra|].
      unfold Rdiv. rewrite Rmult_assoc, Rinv_l by lra. lra. }
  set (t := 1 / (1 + 0.3275911 * u)) in *.
  assert (Hp : 0 <= Analytic.poly t <= 1.4) by (apply poly_bounds; lra).
  pose proof (exp_neg_sq u) as He.
  set (E := exp (- u * u)) in *.
  set (q := Analytic.poly t) in *.
  assert (Hqt : 0 <= q * t <= 1.4) by (split; nra).
  assert (Hw : 0 <= q * t * E <= 2) by (split; nra).
  destruct (Rle_dec 0 y); lra.
Qed.

Lemma anormCdf_bounds x : 0 <= Analytic.normCdf x <= 1.
Proof.
  unfold Analytic.normCdf. pose proof (aerf_bounds (x / sqrt 2)). lra.
Qed.

Lemma anormCdf_sym x :
  x <> 0 -> Analytic.normCdf x + Analytic.normCdf (- x) = 1.
Proof.
  intros Hx. unfold Analytic.normCdf.
  replace (- x / sqrt 2) with (- (x / sqrt 2))
    by (field; apply sqrt2_neq_0).
  rewrite aerf_opp; [lra|].
  intros H. apply Hx.
  replace x with (x / sqrt 2 * sqrt 2) by (field; apply sqrt2_neq_0).
  rewrite H. ring.
Qed.

Lemma anormCdf_0 : Analytic.normCdf 0 = 0.5000000005.
Proof.
  unfold Analytic.normCdf.
  replace (0 / sqrt 2) with 0 by (field; apply sqrt2_neq_0).
  rewrite aerf_0. lra.
Qed.

Lemma anormPdf_pos x : 0 < Analytic.normPdf x.
Proof.
  unfold Analytic.normPdf.
  apply Rmult_lt_0_compat; [|apply exp_pos].
  apply Rdiv_lt_0_compat; [lra|apply sqrt2PI_pos].
Qed.

(* ================================================================= *)
(** ** Put-call parity *)

(** The parity gap in closed form: each of [N(d1) + N(-d1)] and
    [N(d2) + N(-d2)] enters through its distance to one. *)
Lemma parityGap_closed S K T sigma r :
  0 < S -> 0 < K -> 0 < T -> 0 < sigma ->
  let d1 := Analytic.D1 S K T sigma r in
  let d2 := Analytic.D2 S K T sigma r in
  Spec.parityGap (Fin S) (Fin K) (Fin T) (Fin sigma) (Fin r) =
  Fin (S * (Analytic.normCdf d1 + Analytic.normCdf (- d1) - 1)
       - K * exp (- r * T)
         * (Analytic.normCdf d2 + Analytic.normCdf (- d2) - 1)).
Proof.
  intros HS HK HT Hs d1 d2. unfold Spec.parityGap.
  rewrite bsm_Call_Fin, bsm_Put_Fin by assumption.
  cbn [price]. fin_arith. f_equal. fold d1 d2. ring.
Qed.

Lemma anormCdf_pair x :
  (x <> 0 /\ Analytic.normCdf x + Analytic.normCdf (- x) - 1 = 0) \/
  (x = 0 /\ Analytic.normCdf x + Analytic.normCdf (- x) - 1 = 0.000000001).
Proof.
  destruct (Req_dec x 0) as [e|n].
  - right. split; [exact e|]. subst x. rewrite Ropp_0, anormCdf_0. lra.
  - left. split; [exact n|]. rewrite anormCdf_sym by exact n. lra.
Qed.

(** C1 (as the code has it).  For all [S, K, T, sigma > 0] and every
    rate [r], the call price minus the put price equals
    [S - K e^(-rT)] up to [1e-9 * max (S, K e^(-rT))], and exactly
    whenever neither [d1] nor [d2] is zero. *)
Theorem put_call_parity S K T sigma r :
  0 < S -> 0 < K -> 0 < T -> 0 < sigma ->
  exists g : R,
    Spec.parityGap (Fin S) (Fin K) (Fin T) (Fin sigma) (Fin r) = Fin g /\
    Rabs g <= 0.000000001 * Rmax S (K * exp (- r * T)) /\
    (d1 (bsm (Fin S) (Fin K) (Fin T) (Fin sigma) (Fin r) Call) <> Fin 0 ->
     d2 (bsm (Fin S) (Fin K) (Fin T) (Fin sigma) (Fin r) Call) <> Fin 0 ->
     g = 0).
Proof.
  intros HS HK HT Hs.
  rewrite parityGap_closed, bsm_Call_Fin by assumption.
  cbn [d1 d2].
  set (x1 := Analytic.D1 S K T sigma r).
  set (x2 := Analytic.D2 S K T sigma r).
  assert (Hd : x2 = x1 - sigma * sqrt T) by reflexivity.
  pose proof (sqrt_lt_R0 _ HT) as HsqT.
  assert (Hgap : 0 < sigma * sqrt T) by (apply Rmult_lt_0_compat; lra).
  pose proof (exp_pos (- r * T)) as He.
  set (E := exp (- r * T)) in *.
  assert (HKE : 0 < K * E) by (apply Rmult_lt_0_compat; lra).
  pose proof (Rmax_l S (K * E)) as Hl.
  pose proof (Rmax_r S (K * E)) as Hr.
  eexists. split; [reflexivity|].
  destruct (anormCdf_pair x1) as [[N1 E1]|[Z1 E1]],
           (anormCdf_pair x2) as [[N2 E2]|[Z2 E2]];
    rewrite E1, E2.
  - split; [|intros _ _; ring].
    replace (S * 0 - K * E * 0) with 0 by ring. rewrite Rabs_R0. lra.
  - split; [|intros _ H; elim H; now rewrite Z2].
    replace (S * 0 - K * E * 0.000000001) with (- (K * E * 0.000000001))
      by ring.
    rewrite Rabs_Ropp, Rabs_pos_eq by lra. lra.
  - split; [|intros H _; elim H; now rewrite Z1].
    replace (S * 0.000000001 - K * E * 0) with (S * 0.000000001) by ring.
    rewrite Rabs_pos_eq by lra. lra.
  - exfalso. lra.
Qed.

Lemma put_call_parity_witness :
  0 < 100 /\ 0 < 1 /\ 0 < 0.2 /\
  exists g : R,
    Spec.parityGap (Fin 100) (Fin 100) (Fin 1) (Fin 0.2) (Fin 0.07) = Fin g /\
    Rabs g <= 0.000000001 * Rmax 100 (100 * exp (- (0.07) * 1)).
Proof.
  assert (H100 : 0 < 100) by lra.
  assert (H1 : 0 < 1) by lra.
  assert (H02 : 0 < 0.2) by lra.
  split; [exact H100|]. split; [exact H1|]. split; [exact H02|].
  destruct (put_call_parity 100 100 1 0.2 0.07 H100 H100 H1 H02)
    as [g [Hg [Hb _]]].
  exists g. split; assumption.
Defined.

(** C1 as stated fails: at [S = K = 100000], [T = 1], [sigma = 0.5],
    [r = 0.125] the value [d2] is zero, [N(0) + N(-0)] is
    [1.000000001], and the parity gap exceeds [1e-6] in absolute
    value. *)
Lemma put_call_parity_counterexample :
  (Math_abs (Spec.parityGap (Fin 100000) (Fin 100000) (Fin 1) (Fin 0.5)
                            (Fin 0.125))
   <=? Fin 0.000001)%num = false.
Proof.
  rewrite parityGap_closed by lra.
  assert (H1 : Analytic.D1 100000 100000 1 0.5 0.125 = 0.5).
  { unfold Analytic.D1.
    replace (100000 / 100000) with 1 by (field; lra).
    rewrite ln_1, sqrt_1. lra. }
  assert (H2 : Analytic.D2 100000 100000 1 0.5 0.125 = 0).
  { unfold Analytic.D2. rewrite H1, sqrt_1. lra. }
  rewrite H1, H2.
  rewrite anormCdf_sym by lra.
  rewrite Ropp_0, anormCdf_0.
  pose proof (exp_ineq1_le (- (0.125) * 1)) as He.
  set (E := exp (- (0.125) * 1)) in *.
  cbn [Math_abs]. unfold le. apply Rleb_false.
  replace (100000 * (1 - 1) - 100000 * E * (0.5000000005 + 0.5000000005 - 1))
    with (- (0.0001 * E)) by lra.
  rewrite Rabs_Ropp, Rabs_pos_eq by lra. lra.
Qed.

(* ================================================================= *)
(** ** Bounds on the Greeks *)

(** C9.  For every [S > 0], [K > 0] and every finite [T], [sigma] and
    [r], in the analytic and in the degenerate branch alike, the call
    delta lies in [[0, 1]], the put delta in [[-1, 0]], and gamma and
    vega are non-negative; the error-function approximation keeps
    [N(d1)] within [[0, 1]]. *)
Theorem greek_bounds S K T sigma r :
  0 < S -> 0 < K ->
  let c := greeks (bsm (Fin S) (Fin K) (Fin T) (Fin sigma) (Fin r) Call) in
  let p := greeks (bsm (Fin S) (Fin K) (Fin T) (Fin sigma) (Fin r) Put) in
  ((Fin 0 <=? delta c)%num && (delta c <=? Fin 1)%num)%bool = true /\
  ((Fin (-1) <=? delta p)%num && (delta p <=? Fin 0)%num)%bool = true /\
  (Fin 0 <=? gamma c)%num = true /\ (Fin 0 <=? gamma p)%num = true /\
  (Fin 0 <=? vega c)%num = true /\ (Fin 0 <=? vega p)%num = true.
Proof.
  intros HS HK c p. subst c p.
  destruct (Rle_dec T 0) as [HT|HT];
    [|destruct (Rle_dec sigma 0) as [Hs|Hs]].
  - assert (G : (Fin T <=? Fin 0)%num = true \/ (Fin sigma <=? Fin 0)%num = true)
      by (left; apply Rleb_true; exact HT).
    destruct (bsm_fallback_real S K (Fin T) (Fin sigma) (Fin r) G) as [EC EP].
    rewrite EC, EP. cbn [greeks delta gamma vega]. unfold le.
    destruct (Rlt_dec K S), (Rlt_dec S K);
      rewrite ?Rleb_true by lra; repeat split; reflexivity.
  - assert (G : (Fin T <=? Fin 0)%num = true \/ (Fin sigma <=? Fin 0)%num = true)
      by (right; apply Rleb_true; exact Hs).
    destruct (bsm_fallback_real S K (Fin T) (Fin sigma) (Fin r) G) as [EC EP].
    rewrite EC, EP. cbn [greeks delta gamma vega]. unfold le.
    destruct (Rlt_dec K S), (Rlt_dec S K);
      rewrite ?Rleb_true by lra; repeat split; reflexivity.
  - assert (HT' : 0 < T) by lra. assert (Hs' : 0 < sigma) by lra.
    rewrite (@bsm_Call_Fin S K T sigma r HS HK HT' Hs').
    rewrite (@bsm_Put_Fin S K T sigma r HS HK HT' Hs').
    cbn [greeks delta gamma vega]. unfold le.
    set (x := Analytic.D1 S K T sigma r).
    pose proof (anormCdf_bounds x) as HN.
    pose proof (anormPdf_pos x) as Hphi.
    pose proof (sqrt_lt_R0 _ HT') as HsqT.
    assert (Hden : 0 < S * sigma * sqrt T)
      by (repeat apply Rmult_lt_0_compat; assumption).
    assert (Hg : 0 <= Analytic.normPdf x / (S * sigma * sqrt T))
      by (left; apply Rdiv_lt_0_compat; assumption).
    assert (Hv : 0 <= S * Analytic.normPdf x * sqrt T)
      by (left; apply Rmult_lt_0_compat;
          [apply Rmult_lt_0_compat|]; assumption).
    rewrite !Rleb_true by lra. repeat split; reflexivity.
Qed.

Lemma greek_bounds_witness :
  0 < 100 /\ 0 < 95 /\
  ((Fin 0 <=? delta (greeks (bsm (Fin 100) (Fin 95) (Fin 0.25) (Fin 0.2)
                                  (Fin 0.07) Call)))%num
   && (delta (greeks (bsm (Fin 100) (Fin 95) (Fin 0.25) (Fin 0.2)
                          (Fin 0.07) Call)) <=? Fin 1)%num)%bool = true.
Proof.
  assert (H100 : 0 < 100) by lra.
  assert (H95 : 0 < 95) by lra.
  split; [exact H100|]. split; [exact H95|].
  exact (proj1 (greek_bounds 100 95 0.25 0.2 0.07 H100 H95)).
Defined.

(* ================================================================= *)
(** ** Statistics of a constant series *)

Lemma get_repeat (x : num) n i : (i < n)%nat -> get (repeat x n) i = x.
Proof.
  unfold get. revert i. induction n as [|n IH]; intros i Hi; [lia|].
  destruct i as [|i]; [reflexivity|]. cbn. apply IH. lia.
Qed.

Lemma mapi_from_repeat {A} (f : A -> nat -> num) (x : A) (c : num) m i :
  (forall j, (i <= j < i + m)%nat -> f x j = c) ->
  mapi_from i f (repeat x m) = repeat c m.
Proof.
  revert i. induction m as [|m IH]; intros i H; [reflexivity|].
  cbn. rewrite (H i) by lia. f_equal. apply IH. intros j Hj. apply H. lia.
Qed.

Lemma fold_left_zero (g : num -> num) (c : num) m :
  g c = Fin 0 ->
  fold_left (fun s r => add s (g r)) (repeat c m) (Fin 0) = Fin 0.
Proof.
  intros Hg. induction m as [|m IH]; [reflexivity|].
  cbn [repeat fold_left]. rewrite Hg, add_Fin, Rplus_0_l. exact IH.
Qed.

Lemma INR_ge_2 m : (2 <= m)%nat -> 2 <= INR m.
Proof. intros H. apply le_INR in H. simpl in H. lra. Qed.

(** C5 (what the code does).  On a constant series of at least three
    positive prices every log return is zero, so the standard deviation
    is zero and the annualised volatility with it; the division by the
    zero deviation is not special-cased: skewness and excess kurtosis
    are [0 / 0], that is NaN, not zero. *)
Theorem constant_series_statistics p n :
  0 < p -> (3 <= n)%nat ->
  let st := calculateSummaryStatistics (repeat (Fin p) n) in
  dailyLogReturns st = repeat (Fin 0) (n - 1) /\
  annualizedVolatility st = Fin 0 /\
  skewness st = NaN /\
  kurtosis st = NaN.
Proof.
  intros Hp Hn.
  destruct n as [|n]; [lia|].
  replace (S n - 1)%nat with n by lia.
  assert (Hm : (2 <= n)%nat) by lia.
  unfold calculateSummaryStatistics.
  assert (Hret :
    mapi (fun q i => Math_log (q / get (repeat (Fin p) (S n)) i)%num)
         (slice1 (repeat (Fin p) (S n))) = repeat (Fin 0) n).
  { unfold mapi, slice1. cbn [repeat tl].
    apply mapi_from_repeat. intros j Hj.
    change (Fin p :: repeat (Fin p) n) with (repeat (Fin p) (S n)).
    rewrite get_repeat by lia.
    rewrite div_Fin by lra.
    replace (p / p) with 1 by (field; lra).
    rewrite log_Fin by lra. now rewrite ln_1. }
  rewrite Hret, repeat_length.
  assert (Hlt : (n <? 2)%nat = false) by (apply Nat.ltb_ge; exact Hm).
  rewrite Hlt. cbv zeta.
  cbn [dailyLogReturns annualizedVolatility skewness kurtosis].
  pose proof (INR_ge_2 n Hm) as Hn2.
  unfold of_nat.
  assert (Hmean :
    (fold_left (fun sum r => sum + r) (repeat (Fin 0) n) (Fin 0)
     / Fin (INR n))%num = Fin 0).
  { rewrite (fold_left_zero (fun r => r)) by reflexivity.
    rewrite div_Fin by lra. f_equal. field. lra. }
  rewrite Hmean.
  assert (Hpow : forall k, (1 <= k)%nat ->
            Math_pow (Fin 0 - Fin 0)%num k = Fin 0).
  { intros k Hk. rewrite sub_Fin, Rminus_diag.
    induction k as [|k IH]; [lia|].
    destruct k as [|k]; [reflexivity|].
    change (Math_pow (Fin 0) (S (S k)))
      with (Fin 0 * Math_pow (Fin 0) (S k))%num.
    rewrite IH by lia. rewrite mul_Fin. f_equal. ring. }
  rewrite (fold_left_zero (fun r => Math_pow (r - Fin 0)%num 2))
    by (apply Hpow; lia).
  rewrite (fold_left_zero (fun r => Math_pow (r - Fin 0)%num 3))
    by (apply Hpow; lia).
  rewrite (fold_left_zero (fun r => Math_pow (r - Fin 0)%num 4))
    by (apply Hpow; lia).
  rewrite sub_Fin, !div_Fin by lra.
  replace (0 / (INR n - 1)) with 0 by (field; lra).
  replace (0 / INR n) with 0 by (field; lra).
  rewrite sqrt_Fin, sqrt_0 by lra.
  rewrite (sqrt_Fin (x:=252)) by lra.
  cbn [Math_pow]. rewrite !mul_Fin.
  rewrite !Rmult_0_l.
  rewrite !div_Fin_zero, Rsign_zero. cbn [inf_of_sign].
  repeat split; reflexivity.
Qed.

(** Three equal prices give zero volatility and a skewness that is
    NaN. *)
Lemma constant_series_statistics_witness :
  0 < 100 /\ (3 <= 3)%nat /\
  annualizedVolatility
    (calculateSummaryStatistics [Fin 100; Fin 100; Fin 100]) = Fin 0 /\
  skewness (calculateSummaryStatistics [Fin 100; Fin 100; Fin 100]) = NaN.
Proof.
  assert (H100 : 0 < 100) by lra.
  assert (H3 : (3 <= 3)%nat) by apply le_n.
  split; [exact H100|]. split; [exact H3|].
  destruct (constant_series_statistics 100 3 H100 H3) as [_ [Hv [Hs _]]].
  split; [exact Hv|exact Hs].
Defined.

(* ================================================================= *)
(** ** Sums of numbers *)

Lemma add_0_l (a : num) : add (Fin 0) a = a.
Proof. destruct a; cbn; try reflexivity. now rewrite Rplus_0_l. Qed.

Lemma add_0_r (a : num) : add a (Fin 0) = a.
Proof. destruct a; cbn; try reflexivity. now rewrite Rplus_0_r. Qed.

Lemma add_assoc (a b c : num) : add (add a b) c = add a (add b c).
Proof.
  destruct a, b, c; cbn; try reflexivity. now rewrite Rplus_assoc.
Qed.

Lemma fold_left_total {A} (g : A -> num) (l : list A) (a : num) :
  fold_left (fun s x => add s (g x)) l a = add a (Spec.total (map g l)).
Proof.
  revert a. induction l as [|x l IH]; intros a; cbn [fold_left map Spec.total].
  - now rewrite add_0_r.
  - rewrite IH. apply add_assoc.
Qed.

Lemma fold_left_total_0 {A} (g : A -> num) (l : list A) :
  fold_left (fun s x => add s (g x)) l (Fin 0) = Spec.total (map g l).
Proof. rewrite fold_left_total. apply add_0_l. Qed.

Lemma map_id_num (l : list num) : map (fun r => r) l = l.
Proof. apply map_id. Qed.

(* ================================================================= *)
(** ** The value series and its returns *)

Lemma lit_252 : 252.0 = 252.
Proof. lra. Qed.

Lemma pvSeries_spec portfolio stockPrices config :
  pvSeries portfolio stockPrices config =
  Spec.valueSeries portfolio stockPrices config.
Proof.
  unfold pvSeries, Spec.valueSeries. apply map_ext. intros S_t.
  unfold Spec.repricedValue, Spec.repricedOption.
  rewrite <- fold_left_total_0. rewrite lit_252. reflexivity.
Qed.

Lemma mapi_from_returns (pre V : list num) :
  mapi_from (length pre)
    (fun q i => ((q - get (pre ++ V) i) / get (pre ++ V) i)%num) (tl V)
  = Spec.simpleReturns V.
Proof.
  revert pre. induction V as [|v0 W IH]; intros pre; [reflexivity|].
  destruct W as [|v1 W']; [reflexivity|].
  cbn [tl mapi_from Spec.simpleReturns].
  unfold get at 1 2. rewrite nth_middle. f_equal.
  specialize (IH (pre ++ [v0])).
  rewrite <- app_assoc, length_app, Nat.add_comm in IH. exact IH.
Qed.

Lemma pvReturns_spec (V : list num) : pvReturns V = Spec.finiteReturns V.
Proof.
  unfold pvReturns, Spec.finiteReturns, mapi, slice1.
  now rewrite <- (mapi_from_returns [] V).
Qed.

Lemma get_last (V : list num) : get V (length V - 1) = Spec.lastValue V.
Proof.
  unfold get, Spec.lastValue.
  induction V as [|v V IH]; [reflexivity|].
  destruct V as [|w V]; [reflexivity|].
  replace (length (v :: w :: V) - 1)%nat with (S (length (w :: V) - 1))
    by (cbn [length]; lia).
  change (nth (length (w :: V) - 1) (w :: V) NaN = last (w :: V) NaN).
  exact IH.
Qed.

Lemma simpleReturns_length (V : list num) :
  length (Spec.simpleReturns V) = (length V - 1)%nat.
Proof.
  induction V as [|v0 W IH]; [reflexivity|].
  destruct W as [|v1 W']; [reflexivity|].
  cbn [Spec.simpleReturns length] in *. rewrite IH. lia.
Qed.

Lemma finiteReturns_length (V : list num) :
  (length (Spec.finiteReturns V) <= length V - 1)%nat.
Proof.
  unfold Spec.finiteReturns. rewrite <- simpleReturns_length.
  apply filter_length_le.
Qed.

Lemma returnsMean_spec (l : list num) : returnsMean l = Spec.mean l.
Proof.
  unfold returnsMean, Spec.mean.
  rewrite (fold_left_total_0 (fun r => r)), map_id_num. reflexivity.
Qed.

Lemma returnsStd_spec (l : list num) : returnsStd l = Spec.sampleStdDev l.
Proof.
  unfold returnsStd, Spec.sampleStdDev.
  rewrite (fold_left_total_0 (fun r => Math_pow (r - returnsMean l)%num 2)).
  rewrite returnsMean_spec. reflexivity.
Qed.

Lemma normCdf_in_unit x :
  ((Fin 0 <=? normCdf (Fin x))%num && (normCdf (Fin x) <=? Fin 1)%num)%bool
  = true.
Proof.
  rewrite normCdf_Fin. unfold le.
  pose proof (anormCdf_bounds x). now rewrite !Rleb_true by lra.
Qed.

(** C3.  For a non-empty portfolio whose re-priced value series has at
    least two finite simple returns, the parametric figures are
    [-(mean + normCdf (0.05) * s) * V_last] and
    [-(mean + normCdf (0.01) * s) * V_last], with the mean and the
    sample standard deviation [s] (divisor [n - 1]) of those returns
    and the last value of the series; [normCdf] is the approximate
    distribution function, a number in [[0, 1]], not a quantile. *)
Theorem parametric_var_formula portfolio stockPrices config :
  portfolio <> [] ->
  (2 <= length (Spec.finiteReturns
                  (Spec.valueSeries portfolio stockPrices config)))%nat ->
  let V := Spec.valueSeries portfolio stockPrices config in
  let R := Spec.finiteReturns V in
  let res := calculatePortfolioVaR portfolio stockPrices config in
  parametric95 res =
    (- (Spec.mean R + normCdf (Fin 0.05) * Spec.sampleStdDev R)
     * Spec.lastValue V)%num /\
  parametric99 res =
    (- (Spec.mean R + normCdf (Fin 0.01) * Spec.sampleStdDev R)
     * Spec.lastValue V)%num /\
  ((Fin 0 <=? normCdf (Fin 0.05))%num
   && (normCdf (Fin 0.05) <=? Fin 1)%num)%bool = true /\
  ((Fin 0 <=? normCdf (Fin 0.01))%num
   && (normCdf (Fin 0.01) <=? Fin 1)%num)%bool = true.
Proof.
  intros Hne Hlen V R res. subst res.
  change (2 <= length R)%nat in Hlen.
  assert (HV : (length R <= length V - 1)%nat)
    by apply finiteReturns_length.
  assert (HVlen : length V = length stockPrices)
    by (unfold V, Spec.valueSeries; apply length_map).
  unfold calculatePortfolioVaR.
  assert (G1 : (length portfolio =? 0)%nat = false).
  { apply Nat.eqb_neq. destruct portfolio; [contradiction|discriminate]. }
  assert (G2 : (length stockPrices <? 2)%nat = false).
  { apply Nat.ltb_ge. lia. }
  rewrite G1, G2. cbn [orb].
  rewrite pvSeries_spec, pvReturns_spec. fold V R.
  assert (G3 : (length R <? 2)%nat = false) by (apply Nat.ltb_ge; exact Hlen).
  rewrite G3. cbv zeta. cbn [parametric95 parametric99].
  rewrite returnsMean_spec, returnsStd_spec, get_last.
  repeat split; try reflexivity; apply normCdf_in_unit.
Qed.

(* ================================================================= *)
(** ** Sorting rearranges *)

Lemma insert_by_perm {A} (cmp : A -> A -> num) (x : A) (l : list A) :
  Permutation (insert_by cmp x l) (x :: l).
Proof.
  induction l as [|y l IH]; cbn [insert_by]; [apply Permutation_refl|].
  destruct (cmp x y >? Fin 0)%num; [|apply Permutation_refl].
  eapply Permutation_trans; [apply perm_skip, IH|apply perm_swap].
Qed.

Lemma sort_by_perm {A} (cmp : A -> A -> num) (l : list A) :
  Permutation (sort_by cmp l) l.
Proof.
  induction l as [|x l IH]; cbn [sort_by]; [apply perm_nil|].
  eapply Permutation_trans; [apply insert_by_perm|apply perm_skip, IH].
Qed.

Lemma sort_by_length {A} (cmp : A -> A -> num) (l : list A) :
  length (sort_by cmp l) = length l.
Proof. apply Permutation_length, sort_by_perm. Qed.

(* ================================================================= *)
(** ** A portfolio holding the stock leg only *)

Lemma stock_value (lastPrice r : num) (s : R) :
  0 <= s ->
  Spec.repricedValue (Sample.stockOnly lastPrice)
                     (mkConfig r (Fin 1) "2024-01-01" "2024-12-31") (Fin s)
  = Fin s.
Proof.
  intros Hs. unfold Spec.repricedValue, Sample.stockOnly, Spec.repricedOption.
  cbn [map Spec.total pos_option quantity Sample.stockHedge strike maturity
       iv type lotSize riskFreeRate].
  rewrite bsm_fallback by (right; apply Rleb_true; lra).
  cbn [price]. rewrite sub_Fin, max_Fin, Rmax_right by lra.
  rewrite !mul_Fin, add_Fin. f_equal. lra.
Qed.

Lemma rising_series :
  Spec.valueSeries (Sample.stockOnly (Fin 121)) Sample.rising Sample.unitLots
  = [Fin 100; Fin 110; Fin 121].
Proof.
  unfold Spec.valueSeries, Sample.rising, Sample.unitLots. cbn [map].
  now rewrite !stock_value by lra.
Qed.

Lemma falling_series :
  Spec.valueSeries (Sample.stockOnly (Fin 100)) Sample.falling Sample.unitLots
  = [Fin 121; Fin 110; Fin 100].
Proof.
  unfold Spec.valueSeries, Sample.falling, Sample.unitLots. cbn [map].
  now rewrite !stock_value by lra.
Qed.

Lemma returns_of_three a b c :
  a <> 0 -> b <> 0 ->
  Spec.finiteReturns [Fin a; Fin b; Fin c]
  = [Fin ((b - a) / a); Fin ((c - b) / b)].
Proof.
  intros Ha Hb. unfold Spec.finiteReturns. cbn [Spec.simpleReturns].
  rewrite !sub_Fin, !div_Fin by assumption. reflexivity.
Qed.

Lemma parametric_var_formula_witness :
  Sample.stockOnly (Fin 121) <> [] /\
  parametric95
    (calculatePortfolioVaR (Sample.stockOnly (Fin 121)) Sample.rising
                           Sample.unitLots)
  = (- (Spec.mean [Fin ((110 - 100) / 100); Fin ((121 - 110) / 110)]
        + normCdf (Fin 0.05)
          * Spec.sampleStdDev [Fin ((110 - 100) / 100); Fin ((121 - 110) / 110)])
     * Fin 121)%num.
Proof.
  assert (Hne : Sample.stockOnly (Fin 121) <> []) by discriminate.
  assert (Hlen :
    (2 <= length (Spec.finiteReturns
                    (Spec.valueSeries (Sample.stockOnly (Fin 121))
                                      Sample.rising Sample.unitLots)))%nat).
  { rewrite rising_series, returns_of_three by lra. apply le_n. }
  split; [exact Hne|].
  destruct (parametric_var_formula (Sample.stockOnly (Fin 121)) Sample.rising
              Sample.unitLots Hne Hlen) as [H95 _].
  rewrite H95, rising_series, returns_of_three by lra. reflexivity.
Defined.

(* ================================================================= *)
(** ** Value at risk *)

Lemma var_degenerate portfolio stockPrices config :
  (length portfolio = 0 \/ length stockPrices < 2 \/
   length (Spec.finiteReturns
             (Spec.valueSeries portfolio stockPrices config)) < 2)%nat ->
  calculatePortfolioVaR portfolio stockPrices config
  = mkVaR (Fin 0) (Fin 0) (Fin 0) (Fin 0).
Proof.
  intros H. unfold calculatePortfolioVaR.
  destruct (length portfolio =? 0)%nat eqn:G1; [reflexivity|].
  destruct (length stockPrices <? 2)%nat eqn:G2; [reflexivity|].
  cbn [orb]. rewrite pvSeries_spec, pvReturns_spec.
  apply Nat.eqb_neq in G1. apply Nat.ltb_ge in G2.
  destruct H as [H|[H|H]]; try lia.
  apply Nat.ltb_lt in H. now rewrite H.
Qed.

Lemma var_unfold portfolio stockPrices config :
  length portfolio <> 0%nat ->
  (2 <= length (Spec.finiteReturns
                  (Spec.valueSeries portfolio stockPrices config)))%nat ->
  let V := Spec.valueSeries portfolio stockPrices config in
  let R := Spec.finiteReturns V in
  calculatePortfolioVaR portfolio stockPrices config =
  mkVaR
    (- (Spec.mean R + normCdf (Fin 0.05) * Spec.sampleStdDev R)
     * Spec.lastValue V)%num
    (- (Spec.mean R + normCdf (Fin 0.01) * Spec.sampleStdDev R)
     * Spec.lastValue V)%num
    (- Spec.quantileReturn (Fin 0.05) R * Spec.lastValue V)%num
    (- Spec.quantileReturn (Fin 0.01) R * Spec.lastValue V)%num.
Proof.
  intros Hne Hlen V R.
  change (2 <= length R)%nat in Hlen.
  assert (HV : (length R <= length V - 1)%nat)
    by apply finiteReturns_length.
  assert (HVlen : length V = length stockPrices)
    by (unfold V, Spec.valueSeries; apply length_map).
  unfold calculatePortfolioVaR.
  assert (G1 : (length portfolio =? 0)%nat = false)
    by (apply Nat.eqb_neq; exact Hne).
  assert (G2 : (length stockPrices <? 2)%nat = false)
    by (apply Nat.ltb_ge; lia).
  rewrite G1, G2. cbn [orb].
  rewrite pvSeries_spec, pvReturns_spec. fold V R.
  assert (G3 : (length R <? 2)%nat = false) by (apply Nat.ltb_ge; exact Hlen).
  rewrite G3. cbv zeta.
  rewrite returnsMean_spec, returnsStd_spec, get_last, sort_by_length.
  reflexivity.
Qed.

(** A loss figure [- x * v] with [v > 0] is non-negative exactly when
    [x <= 0]. *)
Lemma loss_sign (x : num) (v : R) :
  0 < v -> (Fin 0 <=? - x * Fin v)%num = (x <=? Fin 0)%num.
Proof.
  intros Hv. destruct x as [a| | |]; cbn [neg mul sgn sign_mul].
  - unfold le, Rleb.
    destruct (Rle_dec 0 (- a * v)), (Rle_dec a 0); try reflexivity; nra.
  - rewrite Rsign_pos by exact Hv. reflexivity.
  - rewrite Rsign_pos by exact Hv. reflexivity.
  - reflexivity.
Qed.

(** C4 (as the code has it).  The four figures are zero when the
    portfolio is empty, fewer than two prices are given or fewer than
    two finite returns remain.  Otherwise they are signed and not
    clamped: with a positive last value, a parametric figure is
    non-negative exactly when [mean + normCdf (c) * s <= 0], and a
    historical figure exactly when the quantile return is [<= 0]. *)
Theorem var_sign portfolio stockPrices config :
  let V := Spec.valueSeries portfolio stockPrices config in
  let Rt := Spec.finiteReturns V in
  let res := calculatePortfolioVaR portfolio stockPrices config in
  ((length portfolio = 0 \/ length stockPrices < 2 \/ length Rt < 2)%nat ->
   res = mkVaR (Fin 0) (Fin 0) (Fin 0) (Fin 0)) /\
  (length portfolio <> 0%nat -> (2 <= length Rt)%nat ->
   forall v : R, Spec.lastValue V = Fin v -> 0 < v ->
     (Fin 0 <=? parametric95 res)%num
       = (Spec.mean Rt + normCdf (Fin 0.05) * Spec.sampleStdDev Rt <=? Fin 0)%num /\
     (Fin 0 <=? parametric99 res)%num
       = (Spec.mean Rt + normCdf (Fin 0.01) * Spec.sampleStdDev Rt <=? Fin 0)%num /\
     (Fin 0 <=? historical95 res)%num
       = (Spec.quantileReturn (Fin 0.05) Rt <=? Fin 0)%num /\
     (Fin 0 <=? historical99 res)%num
       = (Spec.quantileReturn (Fin 0.01) Rt <=? Fin 0)%num).
Proof.
  intros V Rt res. subst res. split.
  - apply var_degenerate.
  - intros Hne Hlen v Hlast Hv.
    rewrite (var_unfold portfolio stockPrices config Hne Hlen).
    fold V Rt. rewrite Hlast.
    cbn [parametric95 parametric99 historical95 historical99].
    rewrite !loss_sign by exact Hv. repeat split; reflexivity.
Qed.

Lemma get_at_floor (l : list num) (x : R) (k : nat) :
  INR k <= x < INR k + 1 -> get_at l (Math_floor (Fin x)) = get l k.
Proof.
  intros Hx. unfold get_at, Math_floor, index_of.
  assert (E : Int_part x = Z.of_nat k).
  { symmetry. apply Int_part_spec. rewrite <- INR_IZR_INZ. lra. }
  rewrite E.
  assert (E' : Int_part (IZR (Z.of_nat k)) = Z.of_nat k).
  { symmetry. apply Int_part_spec. lra. }
  rewrite E'.
  pose proof (pos_INR k) as Hk. rewrite INR_IZR_INZ in Hk.
  destruct (Rlt_dec (IZR (Z.of_nat k)) 0); [lra|].
  destruct (Req_dec_T (IZR (Z.of_nat k)) (IZR (Z.of_nat k))) as [_|n0];
    [|now elim n0].
  now rewrite Nat2Z.id.
Qed.

Lemma mean_pair a : Spec.mean [Fin a; Fin a] = Fin a.
Proof.
  unfold Spec.mean, of_nat. cbn [Spec.total length INR].
  rewrite !add_Fin, div_Fin by lra. f_equal. field.
Qed.

Lemma sampleStdDev_pair a : Spec.sampleStdDev [Fin a; Fin a] = Fin 0.
Proof.
  unfold Spec.sampleStdDev, of_nat. rewrite mean_pair.
  cbn [map Spec.total length INR].
  rewrite !sub_Fin, !mul_Fin, !add_Fin, div_Fin by lra.
  replace (((a - a) * (a - a) + ((a - a) * (a - a) + 0)) / (1 + 1 - 1))
    with 0 by (field; lra).
  rewrite sqrt_Fin, sqrt_0 by lra. reflexivity.
Qed.

Lemma quantile_pair c a :
  0 <= c < 0.5 -> Spec.quantileReturn (Fin c) [Fin a; Fin a] = Fin a.
Proof.
  intros Hc. unfold Spec.quantileReturn, of_nat.
  cbn [sort_by insert_by length INR].
  rewrite sub_Fin. unfold gt, lt. rewrite Rltb_false by lra.
  rewrite mul_Fin, (get_at_floor _ _ 0) by (cbn [INR]; lra).
  reflexivity.
Qed.

(** C4 as stated fails: a portfolio holding one share through the stock
    leg, re-priced along the prices 100, 110, 121 with a lot size of
    one, has two returns of 0.1 and a last value of 121; all four
    figures are -12.1. *)
Lemma var_sign_counterexample :
  calculatePortfolioVaR (Sample.stockOnly (Fin 121)) Sample.rising
                        Sample.unitLots
  = mkVaR (Fin (-12.1)) (Fin (-12.1)) (Fin (-12.1)) (Fin (-12.1))
  /\ (Fin 0 <=? Fin (-12.1))%num = false.
Proof.
  split; [|apply Rleb_false; lra].
  rewrite var_unfold;
    rewrite ?rising_series, ?returns_of_three by lra;
    [|discriminate|apply le_n].
  replace ((110 - 100) / 100) with 0.1 by lra.
  replace ((121 - 110) / 110) with 0.1 by lra.
  rewrite mean_pair, sampleStdDev_pair, !quantile_pair by lra.
  rewrite !normCdf_Fin. unfold Spec.lastValue. cbn [last].
  fin_arith. f_equal; f_equal; lra.
Qed.

Lemma var_sign_witness :
  length (Sample.stockOnly (Fin 100)) <> 0%nat /\
  0 < 100 /\
  (Fin 0 <=? historical95
               (calculatePortfolioVaR (Sample.stockOnly (Fin 100))
                                      Sample.falling Sample.unitLots))%num
  = (Spec.quantileReturn (Fin 0.05)
       [Fin ((110 - 121) / 121); Fin ((100 - 110) / 110)] <=? Fin 0)%num.
Proof.
  assert (Hne : length (Sample.stockOnly (Fin 100)) <> 0%nat) by discriminate.
  assert (Hv : 0 < 100) by lra.
  assert (HR :
    Spec.finiteReturns
      (Spec.valueSeries (Sample.stockOnly (Fin 100)) Sample.falling
                        Sample.unitLots)
    = [Fin ((110 - 121) / 121); Fin ((100 - 110) / 110)]).
  { rewrite falling_series, returns_of_three by lra. reflexivity. }
  assert (Hlen :
    (2 <= length (Spec.finiteReturns
                    (Spec.valueSeries (Sample.stockOnly (Fin 100))
                                      Sample.falling Sample.unitLots)))%nat).
  { rewrite HR. apply le_n. }
  assert (Hlast :
    Spec.lastValue
      (Spec.valueSeries (Sample.stockOnly (Fin 100)) Sample.falling
                        Sample.unitLots) = Fin 100).
  { rewrite falling_series. reflexivity. }
  split; [exact Hne|]. split; [exact Hv|].
  destruct (proj2 (var_sign (Sample.stockOnly (Fin 100)) Sample.falling
                     Sample.unitLots) Hne Hlen 100 Hlast Hv)
    as [_ [_ [H95 _]]].
  rewrite H95, HR. reflexivity.
Defined.

(* ================================================================= *)
(** ** Portfolio Greeks and the delta hedge *)

Lemma mul_1_r (a : num) : mul a (Fin 1) = a.
Proof.
  destruct a; cbn; rewrite ?Rsign_pos by lra; try reflexivity.
  now rewrite Rmult_1_r.
Qed.

Lemma greeks_fold (portfolio : list PortfolioPosition) (acc : Greeks) :
  let res :=
    fold_left (fun acc pos =>
      mkGreeks (delta acc + quantity pos * delta (opt_greeks (pos_option pos)))
               (gamma acc + quantity pos * gamma (opt_greeks (pos_option pos)))
               (vega acc + quantity pos * vega (opt_greeks (pos_option pos)))
               (theta acc + quantity pos * theta (opt_greeks (pos_option pos)))
               (rho acc + quantity pos * rho (opt_greeks (pos_option pos))))%num
      portfolio acc in
  delta res = add (delta acc) (Spec.portfolioDelta portfolio) /\
  gamma res = add (gamma acc) (Spec.portfolioGamma portfolio).
Proof.
  revert acc. induction portfolio as [|pos l IH]; intros acc.
  - cbn. now rewrite !add_0_r.
  - cbn [fold_left]. destruct (IH
      (mkGreeks (delta acc + quantity pos * delta (opt_greeks (pos_option pos)))
               (gamma acc + quantity pos * gamma (opt_greeks (pos_option pos)))
               (vega acc + quantity pos * vega (opt_greeks (pos_option pos)))
               (theta acc + quantity pos * theta (opt_greeks (pos_option pos)))
               (rho acc + quantity pos * rho (opt_greeks (pos_option pos))))%num)
      as [Hd Hg].
    cbv zeta in *. rewrite Hd, Hg. cbn [delta gamma].
    unfold Spec.portfolioDelta, Spec.portfolioGamma.
    cbn [map Spec.total]. now rewrite !add_assoc.
Qed.

Lemma portfolio_delta (portfolio : list PortfolioPosition) :
  delta (calculatePortfolioGreeks portfolio) = Spec.portfolioDelta portfolio.
Proof.
  unfold calculatePortfolioGreeks.
  rewrite (proj1 (greeks_fold portfolio _)). cbn [delta]. apply add_0_l.
Qed.

Lemma portfolio_gamma (portfolio : list PortfolioPosition) :
  gamma (calculatePortfolioGreeks portfolio) = Spec.portfolioGamma portfolio.
Proof.
  unfold calculatePortfolioGreeks.
  rewrite (proj2 (greeks_fold portfolio _)). cbn [gamma]. apply add_0_l.
Qed.

Lemma hedgePortfolio_spec portfolio (lotSize : num) :
  hedgePortfolio portfolio lotSize
  = (- Spec.portfolioDelta portfolio * lotSize)%num.
Proof. unfold hedgePortfolio. now rewrite portfolio_delta. Qed.

(* ================================================================= *)
(** ** Spot-shock scenarios *)

(** C8.  [calculatePnLScenarios] returns exactly five scenarios, for
    the shocks -2%, -1%, 0%, +1%, +2% of the last price, in that order.
    For each shock the unhedged figure is the portfolio re-priced at
    the shocked spot (each option at its own volatility and maturity,
    at the configured rate) minus the current mark, times the lot
    size; the delta-hedged figure adds minus the portfolio delta times
    the price move, the hedge leg being [hedgePortfolio] at a lot size
    of one, where [hedgePortfolio] is minus the portfolio delta times
    the lot size. *)
Theorem pnl_scenarios portfolio lastPrice config :
  calculatePnLScenarios portfolio lastPrice config
  = map (Spec.shockScenario portfolio lastPrice config)
        [Fin (-0.02); Fin (-0.01); Fin 0; Fin 0.01; Fin 0.02]
  /\ length (calculatePnLScenarios portfolio lastPrice config) = 5%nat
  /\ (forall lotSize : num,
        hedgePortfolio portfolio lotSize
        = (- Spec.portfolioDelta portfolio * lotSize)%num)
  /\ hedgePortfolio portfolio (Fin 1) = (- Spec.portfolioDelta portfolio)%num.
Proof.
  assert (E : calculatePnLScenarios portfolio lastPrice config
              = map (Spec.shockScenario portfolio lastPrice config)
                    [Fin (-0.02); Fin (-0.01); Fin 0; Fin 0.01; Fin 0.02]).
  { unfold calculatePnLScenarios, scenarios.
    replace 0.0 with 0 by lra.
    apply map_ext. intros change.
    unfold Spec.shockScenario, Spec.repricedMark, Spec.currentMark,
      Spec.repricedOption.
    rewrite <- !fold_left_total_0.
    rewrite hedgePortfolio_spec, mul_1_r, lit_252. reflexivity. }
  split; [exact E|]. split; [now rewrite E|].
  split; [intros; apply hedgePortfolio_spec|].
  now rewrite hedgePortfolio_spec, mul_1_r.
Qed.

(* ================================================================= *)
(** ** The order of numbers that are not NaN *)

Ltac num_cases :=
  unfold gt, ge, sub in *; cbn [neg add lt le] in *;
  unfold Rleb, Rltb in *;
  repeat match goal with
         | |- context [Rle_dec ?a ?b] => destruct (Rle_dec a b)
         | |- context [Rlt_dec ?a ?b] => destruct (Rlt_dec a b)
         | H : context [Rle_dec ?a ?b] |- _ => destruct (Rle_dec a b)
         | H : context [Rlt_dec ?a ?b] |- _ => destruct (Rlt_dec a b)
         end;
  try reflexivity; try congruence; try lra.

Lemma gt_sub (a b : num) :
  a <> NaN -> b <> NaN -> (a - b >? Fin 0)%num = (b <? a)%num.
Proof. intros Ha Hb. destruct a, b; num_cases. Qed.

Lemma lt_not_le (a b : num) :
  a <> NaN -> b <> NaN -> (a <? b)%num = negb (b <=? a)%num.
Proof. intros Ha Hb. destruct a, b; num_cases. Qed.

Lemma le_trans (a b c : num) :
  (a <=? b)%num = true -> (b <=? c)%num = true -> (a <=? c)%num = true.
Proof. intros H1 H2. destruct a, b, c; num_cases. Qed.

Lemma le_lt_trans (a b c : num) :
  (a <=? b)%num = true -> (b <? c)%num = true -> (a <? c)%num = true.
Proof. intros H1 H2. destruct a, b, c; num_cases. Qed.

Lemma lt_le_incl (a b : num) : (a <? b)%num = true -> (a <=? b)%num = true.
Proof. intros H. destruct a, b; num_cases. Qed.

Lemma le_refl (a : num) : a <> NaN -> (a <=? a)%num = true.
Proof. intros Ha. destruct a; num_cases. Qed.

Lemma abs_not_NaN (a : num) : a <> NaN -> Math_abs a <> NaN.
Proof. destruct a; cbn; congruence. Qed.

Lemma eqb_eq (a b : num) : (a =? b)%num = true -> a = b.
Proof.
  destruct a, b; cbn; try discriminate; try reflexivity.
  unfold Reqb. destruct (Req_dec_T x x0); [now subst|discriminate].
Qed.

(* ================================================================= *)
(** ** The last element of a sorted array *)

Lemma pop_None {A} (l : list A) : pop l = None <-> l = [].
Proof.
  split; [|now intros ->].
  induction l as [|x l IH]; [reflexivity|].
  cbn [pop]. destruct l; [discriminate|]. intros H. now apply IH in H.
Qed.

Lemma pop_In {A} (l : list A) (m : A) : pop l = Some m -> In m l.
Proof.
  induction l as [|x l IH]; [discriminate|].
  destruct l as [|y l]; cbn [pop].
  - intros H. injection H as <-. now left.
  - intros H. right. now apply IH.
Qed.

Lemma pop_cons {A} (x : A) (l : list A) : l <> [] -> pop (x :: l) = pop l.
Proof. destruct l; [contradiction|reflexivity]. Qed.

Lemma insert_by_not_nil {A} (cmp : A -> A -> num) x l : insert_by cmp x l <> [].
Proof.
  destruct l as [|y l]; cbn [insert_by]; [discriminate|].
  destruct (gt (cmp x y) (Fin 0)); discriminate.
Qed.

Section LastLargest.
Context {A : Type} (key : A -> num).

Let cmp (a b : A) : num := (key a - key b)%num.

Lemma pop_insert (x : A) (s : list A) (m : A) :
  key x <> NaN ->
  (forall y, In y s -> key y <> NaN) ->
  pop s = Some m ->
  (forall y, In y s -> (key y <=? key m)%num = true) ->
  pop (insert_by cmp x s) = Some (if (key m <? key x)%num then x else m).
Proof.
  intros Hx. induction s as [|y s IH]; intros Hs Hpop Hmax; [discriminate|].
  cbn [insert_by]. unfold cmp at 1.
  assert (Hy : key y <> NaN) by (apply Hs; now left).
  rewrite gt_sub by assumption.
  destruct (key y <? key x)%num eqn:Hyx.
  - destruct s as [|z s].
    + injection Hpop as <-. cbn [insert_by pop]. now rewrite Hyx.
    + rewrite pop_cons by apply insert_by_not_nil.
      apply IH.
      * intros w Hw. apply Hs. now right.
      * exact Hpop.
      * intros w Hw. apply Hmax. now right.
  - rewrite pop_cons by discriminate. rewrite Hpop.
    assert (Hm : key m <> NaN) by (apply Hs, pop_In, Hpop).
    assert (Hxy : (key x <=? key y)%num = true).
    { rewrite lt_not_le in Hyx by assumption.
      now apply negb_false_iff in Hyx. }
    assert (Hxm : (key x <=? key m)%num = true).
    { eapply le_trans; [exact Hxy|]. apply Hmax. now left. }
    rewrite lt_not_le by assumption. now rewrite Hxm.
Qed.

Lemma pop_sort_by (l : list A) :
  (forall y, In y l -> key y <> NaN) ->
  l <> [] ->
  exists m l1 l2,
    pop (sort_by cmp l) = Some m /\
    l = l1 ++ m :: l2 /\
    (forall y, In y l1 -> (key y <=? key m)%num = true) /\
    (forall y, In y l2 -> (key y <? key m)%num = true).
Proof.
  induction l as [|x l IH]; intros Hl Hne; [contradiction|].
  assert (Hx : key x <> NaN) by (apply Hl; now left).
  destruct l as [|x' l'].
  - exists x, [], []. cbn. repeat split; intros y [].
  - destruct IH as [m [l1 [l2 [Hpop [El [H1 H2]]]]]];
      [intros y Hy; apply Hl; now right|discriminate|].
    assert (Hm : key m <> NaN).
    { apply Hl. right. rewrite El. apply in_elt. }
    assert (Hall : forall y, In y (x' :: l') -> (key y <=? key m)%num = true).
    { intros y Hy. rewrite El in Hy. apply in_app_or in Hy.
      destruct Hy as [Hy|[<-|Hy]].
      - now apply H1.
      - now apply le_refl.
      - now apply lt_le_incl, H2. }
    assert (Hsorted :
      forall y, In y (sort_by cmp (x' :: l')) -> In y (x' :: l')).
    { intros y. apply Permutation_in, sort_by_perm. }
    change (sort_by cmp (x :: x' :: l'))
      with (insert_by cmp x (sort_by cmp (x' :: l'))).
    rewrite (pop_insert x (sort_by cmp (x' :: l')) m Hx
               (fun y Hy => Hl y (or_intror (Hsorted y Hy))) Hpop
               (fun y Hy => Hall y (Hsorted y Hy))).
    destruct (key m <? key x)%num eqn:Hmx.
    + exists x, [], (x' :: l'). repeat split.
      * intros y [].
      * intros y Hy. eapply le_lt_trans; [apply Hall, Hy|exact Hmx].
    + exists m, (x :: l1), l2. repeat split.
      * now rewrite El.
      * intros y [<-|Hy]; [|now apply H1].
        rewrite lt_not_le in Hmx by assumption.
        now apply negb_false_iff in Hmx.
      * exact H2.
Qed.

End LastLargest.

(* ================================================================= *)
(** ** The gamma hedge *)

Lemma gammaCandidates_perm (optionChain : OptionChain) :
  Permutation (gammaCandidates optionChain) (Spec.thirtyDay optionChain).
Proof. apply sort_by_perm. Qed.

Lemma gammaCandidates_nil (optionChain : OptionChain) :
  pop (gammaCandidates optionChain) = None <-> Spec.thirtyDay optionChain = [].
Proof.
  rewrite pop_None. split; intros H.
  - apply Permutation_nil. rewrite <- H. apply gammaCandidates_perm.
  - unfold gammaCandidates. fold (Spec.thirtyDay optionChain). now rewrite H.
Qed.

(** C7.  [calculateGammaHedge] returns null exactly when the portfolio
    is empty, or the absolute portfolio gamma is below 1e-6, or the
    chain has no 30-day option.  Otherwise it reports the quantity
    [|round (- portfolioGamma / gamma)|] for the option it selects, with
    the action Buy if the unrounded quotient is positive and Sell if
    not; and, the gammas of the 30-day options being numbers, the
    option selected is, among the 30-day options in iteration order,
    the last one of largest absolute gamma. *)
Theorem gamma_hedge_contract portfolio optionChain :
  (calculateGammaHedge portfolio optionChain = None <->
   portfolio = [] \/
   (Math_abs (Spec.portfolioGamma portfolio) <? Fin 0.000001)%num = true \/
   Spec.thirtyDay optionChain = []) /\
  (forall s, calculateGammaHedge portfolio optionChain = Some s ->
     sg_quantity s
       = Math_abs (Math_round (- Spec.portfolioGamma portfolio
                               / gamma (opt_greeks (sg_option s)))%num) /\
     action s
       = (if (- Spec.portfolioGamma portfolio
              / gamma (opt_greeks (sg_option s)) >? Fin 0)%num
          then Buy else Sell) /\
     In (sg_option s) (Spec.thirtyDay optionChain) /\
     ((forall o, In o (Spec.thirtyDay optionChain) ->
                 gamma (opt_greeks o) <> NaN) ->
      Spec.lastLargest (Spec.thirtyDay optionChain) (sg_option s))).
Proof.
  unfold calculateGammaHedge. rewrite portfolio_gamma.
  destruct portfolio as [|pos rest].
  { cbn [length Nat.eqb]. split; [|discriminate].
    split; [now left|reflexivity]. }
  cbn [length Nat.eqb].
  set (G := Spec.portfolioGamma (pos :: rest)).
  destruct (Math_abs G <? Fin 0.000001)%num eqn:Hsmall.
  { split; [|discriminate]. split; [intros _; right; now left|reflexivity]. }
  destruct (pop (gammaCandidates optionChain)) as [m|] eqn:Hpop.
  - assert (Hne : Spec.thirtyDay optionChain <> []).
    { intros E. apply gammaCandidates_nil in E. congruence. }
    split.
    + split; [discriminate|].
      intros [H|[H|H]]; [discriminate|discriminate|contradiction].
    + intros s Hs. injection Hs as <-.
      cbn [sg_option sg_quantity action].
      split; [reflexivity|]. split; [reflexivity|]. split.
      * apply (Permutation_in _ (gammaCandidates_perm optionChain)).
        now apply pop_In.
      * intros Hnum.
        destruct (pop_sort_by Spec.absGamma (Spec.thirtyDay optionChain))
          as [m' [l1 [l2 [Hpop' [El [H1 H2]]]]]].
        -- intros y Hy. apply abs_not_NaN, Hnum, Hy.
        -- exact Hne.
        -- change (pop (gammaCandidates optionChain) = Some m') in Hpop'.
           rewrite Hpop in Hpop'. injection Hpop' as <-.
           exists l1, l2. repeat split; assumption.
  - split; [|discriminate].
    split; [|reflexivity].
    intros _. right. right. now apply gammaCandidates_nil.
Qed.

Lemma thirtyDay_tiedChain :
  Spec.thirtyDay Sample.tiedChain = [Sample.optA; Sample.optB].
Proof.
  unfold Spec.thirtyDay, Sample.tiedChain, Object_values, flat.
  cbn [map snd concat app filter maturity Sample.optA Sample.optB Sample.optC
       Sample.callWith eqb].
  rewrite !Reqb_true, Reqb_false by lra. reflexivity.
Qed.

Lemma gamma_hedge_contract_witness :
  (forall o, In o (Spec.thirtyDay Sample.tiedChain) ->
             gamma (opt_greeks o) <> NaN) /\
  (forall s, calculateGammaHedge Sample.tenLots Sample.tiedChain = Some s ->
             Spec.lastLargest [Sample.optA; Sample.optB] (sg_option s)).
Proof.
  assert (H : forall o, In o (Spec.thirtyDay Sample.tiedChain) ->
                        gamma (opt_greeks o) <> NaN).
  { rewrite thirtyDay_tiedChain. intros o [<-|[<-|[]]]; discriminate. }
  split; [exact H|].
  intros s Hs.
  rewrite <- thirtyDay_tiedChain.
  destruct (proj2 (gamma_hedge_contract Sample.tenLots Sample.tiedChain) s Hs)
    as [_ [_ [_ HL]]].
  exact (HL H).
Defined.


(** C10.  When the chain holds no option with a maturity of 30 days,
    [calculateGammaHedge] returns null for every portfolio, also a
    non-empty one whose gamma is not negligible. *)
Theorem gamma_hedge_no_candidate portfolio optionChain :
  (forall o, In o (flat (Object_values optionChain)) -> maturity o <> Fin 30) ->
  calculateGammaHedge portfolio optionChain = None.
Proof.
  intros H.
  assert (E : Spec.thirtyDay optionChain = []).
  { unfold Spec.thirtyDay.
    induction (flat (Object_values optionChain)) as [|o l IH]; [reflexivity|].
    cbn [filter]. destruct (maturity o =? Fin 30)%num eqn:Em.
    - apply eqb_eq in Em. elim (H o (or_introl eq_refl) Em).
    - apply IH. intros o' Ho'. apply H. now right. }
  apply gammaCandidates_nil in E.
  unfold calculateGammaHedge. rewrite E.
  destruct (length portfolio =? 0)%nat; [reflexivity|].
  destruct (_ <? _)%num; reflexivity.
Qed.

Lemma gamma_hedge_no_candidate_witness :
  (forall o, In o (flat (Object_values Sample.longChain)) ->
             maturity o <> Fin 30) /\
  Sample.tenLots <> [] /\
  (Math_abs (Spec.portfolioGamma Sample.tenLots) <? Fin 0.000001)%num = false /\
  calculateGammaHedge Sample.tenLots Sample.longChain = None.
Proof.
  assert (H : forall o, In o (flat (Object_values Sample.longChain)) ->
                        maturity o <> Fin 30).
  { intros o [<-|[]]. cbn. intros E. injection E as E. lra. }
  split; [exact H|]. split; [discriminate|]. split.
  - unfold Spec.portfolioGamma, Sample.tenLots.
    cbn [map Spec.total quantity pos_option opt_greeks gamma Sample.callWith].
    rewrite mul_Fin, add_Fin. cbn [Math_abs]. unfold lt.
    apply Rltb_false. rewrite Rabs_pos_eq by lra. lra.
  - exact (gamma_hedge_no_candidate Sample.tenLots Sample.longChain H).
Defined.

(* ================================================================= *)
(** ** The option chain *)

Lemma uniq_from_In (seen l : list num) (x : num) :
  In x (uniq_from seen l) <-> In x l /\ ~ In x seen.
Proof.
  revert seen. induction l as [|y l IH]; intros seen; cbn [uniq_from].
  - split; [intros []|intros [[] _]].
  - destruct (in_dec num_eq_dec y seen) as [Hy|Hy].
    + rewrite IH. split.
      * intros [H1 H2]. split; [now right|exact H2].
      * intros [[<-|H1] H2]; [contradiction|now split].
    + cbn [In]. rewrite IH. split.
      * intros [<-|[H1 H2]]; [split; [now left|exact Hy]|].
        split; [now right|]. intros H. apply H2. now right.
      * intros [[<-|H1] H2]; [now left|].
        destruct (num_eq_dec y x) as [E|E]; [now left|].
        right. split; [exact H1|]. intros [H|H]; [contradiction|contradiction].
Qed.

Lemma uniq_from_NoDup (seen l : list num) : NoDup (uniq_from seen l).
Proof.
  revert seen. induction l as [|y l IH]; intros seen; cbn [uniq_from].
  - constructor.
  - destruct (in_dec num_eq_dec y seen) as [Hy|Hy]; [apply IH|].
    constructor; [|apply IH].
    rewrite uniq_from_In. intros [_ H]. apply H. now left.
Qed.

Lemma strikes_In (currentPrice : num) (existingStrikes : list num) (k : num) :
  In k (strikes currentPrice existingStrikes)
  <-> In k (Spec.mergedStrikes currentPrice existingStrikes).
Proof.
  unfold strikes. split; intros H.
  - apply (Permutation_in _ (sort_by_perm _ _)) in H.
    unfold Set_of in H. apply uniq_from_In in H. exact (proj1 H).
  - apply (Permutation_in _ (Permutation_sym (sort_by_perm _ _))).
    unfold Set_of. apply uniq_from_In. split; [exact H|intros []].
Qed.

Lemma strikes_NoDup (currentPrice : num) (existingStrikes : list num) :
  NoDup (strikes currentPrice existingStrikes).
Proof.
  unfold strikes.
  apply (Permutation_NoDup (Permutation_sym (sort_by_perm _ _))).
  apply uniq_from_NoDup.
Qed.

Lemma strikes_count (currentPrice : num) (existingStrikes : list num) (k : num) :
  count_occ num_eq_dec (strikes currentPrice existingStrikes) k
  = if in_dec num_eq_dec k (Spec.mergedStrikes currentPrice existingStrikes)
    then 1%nat else 0%nat.
Proof.
  destruct (in_dec num_eq_dec k _) as [H|H].
  - apply NoDup_count_occ'; [apply strikes_NoDup|now apply strikes_In].
  - apply count_occ_not_In. now rewrite strikes_In.
Qed.

Lemma occurrences_app (l1 l2 : list Option_) k ty :
  Spec.occurrences (l1 ++ l2) k ty
  = (Spec.occurrences l1 k ty + Spec.occurrences l2 k ty)%nat.
Proof. unfold Spec.occurrences. now rewrite filter_app, length_app. Qed.

Lemma occurrences_flat_map (F : num -> OptionType -> Option_) (l : list num) k ty :
  (forall s t, strike (F s t) = s /\ type (F s t) = t) ->
  Spec.occurrences (flat_map (fun s => map (F s) [Call; Put]) l) k ty
  = count_occ num_eq_dec l k.
Proof.
  intros HF. induction l as [|s l IH]; [reflexivity|].
  cbn [flat_map count_occ]. rewrite occurrences_app, IH.
  unfold Spec.occurrences at 1. cbn [map filter].
  destruct (HF s Call) as [-> ->]. destruct (HF s Put) as [-> ->].
  destruct (num_eq_dec s k); destruct ty; reflexivity.
Qed.

Lemma smile_at_the_money (c : R) (hv : num) :
  0 < c ->
  (hv * (Fin 1 + Fin 0.2 * Math_pow (Math_log (Fin c / Fin c)) 2
         - Fin 0.1 * Math_log (Fin c / Fin c)))%num = hv.
Proof.
  intros Hc. rewrite div_Fin by lra.
  replace (c / c) with 1 by (field; lra).
  rewrite log_Fin, ln_1 by lra. cbn [Math_pow]. fin_arith.
  replace (1 + 0.2 * (0 * 0) - 0.1 * 0) with 1 by lra.
  apply mul_1_r.
Qed.

(** C6.  For a current price [c > 0], the chain has exactly the
    maturities 30, 60 and 90; under each of them every option carries
    that maturity, and for every strike and type the number of options
    is one when the strike is among the five rounded multiples of the
    price or the existing strikes, and zero otherwise; and an option
    struck at the current price has an implied volatility equal to the
    historical volatility. *)
Theorem option_chain_structure (c : R) (hv rfr : num) (existing : list num) :
  0 < c ->
  let chain := generateOptionChain (Fin c) hv rfr existing in
  (exists o30 o60 o90,
     chain = [(Fin 30, o30); (Fin 60, o60); (Fin 90, o90)]) /\
  (forall m opts, In (m, opts) chain ->
     (forall o, In o opts -> maturity o = m) /\
     (forall k ty,
        Spec.occurrences opts k ty
        = if in_dec num_eq_dec k (Spec.mergedStrikes (Fin c) existing)
          then 1%nat else 0%nat)) /\
  (forall o, In o (flat (Object_values chain)) ->
     strike o = Fin c -> iv o = hv).
Proof.
  intros Hc chain.
  assert (Hform : forall m opts o, In (m, opts) chain -> In o opts ->
            maturity o = m /\
            iv o = (hv * (Fin 1 + Fin 0.2
                            * Math_pow (Math_log (strike o / Fin c)) 2
                          - Fin 0.1 * Math_log (strike o / Fin c)))%num).
  { intros m opts o Hin Ho. unfold chain, generateOptionChain in Hin.
    apply in_map_iff in Hin. destruct Hin as [mat [E _]].
    injection E as <- <-.
    apply in_flat_map in Ho. destruct Ho as [k [_ Ho]].
    destruct Ho as [<-|[<-|[]]]; split; reflexivity. }
  split; [|split].
  - unfold chain, generateOptionChain, maturities. cbn [map].
    eexists _, _, _. reflexivity.
  - intros m opts Hin. split.
    + intros o Ho. exact (proj1 (Hform m opts o Hin Ho)).
    + intros k ty. unfold chain, generateOptionChain in Hin.
      apply in_map_iff in Hin. destruct Hin as [mat [E _]].
      injection E as <- <-.
      rewrite <- strikes_count.
      apply (occurrences_flat_map
               (fun strike type =>
                  mkOption (ChainId strike mat type) strike mat type _ _ _ _ _ _ _)).
      intros s t. cbn [strike type]. split; reflexivity.
  - intros o Ho Hk. unfold flat, Object_values in Ho.
    apply in_concat in Ho. destruct Ho as [opts [Hopts Ho]].
    apply in_map_iff in Hopts. destruct Hopts as [[m opts'] [E Hin]].
    cbn [snd] in E. subst opts'.
    destruct (Hform m opts o Hin Ho) as [_ Hiv].
    rewrite Hiv, Hk. now apply smile_at_the_money.
Qed.

Lemma option_chain_structure_witness :
  0 < 100 /\
  (forall o,
     In o (flat (Object_values
                   (generateOptionChain (Fin 100) (Fin 0.2) (Fin 7) [Fin 123]))) ->
     strike o = Fin 100 -> iv o = Fin 0.2).
Proof.
  assert (H : 0 < 100) by lra.
  split; [exact H|].
  exact (proj2 (proj2 (option_chain_structure 100 (Fin 0.2) (Fin 7) [Fin 123] H))).
Defined.

(* ================================================================= *)
(** * Further properties of the service *)

(* ================================================================= *)
(** ** The normal distribution helpers *)

Lemma erf_PInf : FinancialService.erf PInf = Fin 1.
Proof.
  unfold FinancialService.erf. cbv zeta.
  cbn [ge le Math_abs neg mul sgn sign_mul inf_of_sign].
  rewrite Rsign_pos by lra.
  cbn [sign_mul inf_of_sign add div Math_exp].
  fin_arith. f_equal. lra.
Qed.

Lemma erf_NInf : FinancialService.erf NInf = Fin (-1).
Proof.
  unfold FinancialService.erf. cbv zeta.
  cbn [ge le Math_abs neg mul sgn sign_mul inf_of_sign].
  rewrite Rsign_pos by lra.
  cbn [sign_mul inf_of_sign add div Math_exp].
  fin_arith. f_equal. lra.
Qed.

(** X1.  The error-function approximation is odd away from zero, stays
    within [[-1, 1]] on every finite argument, is [1e-9] (not zero) at
    zero, and takes the values 1, -1 and NaN at +Infinity, -Infinity
    and NaN. *)
Theorem erf_shape :
  (forall x : R, x <> 0 ->
     FinancialService.erf (- Fin x) = (- FinancialService.erf (Fin x))%num) /\
  (forall x : R,
     exists y : R, FinancialService.erf (Fin x) = Fin y /\ -1 <= y <= 1) /\
  FinancialService.erf (Fin 0) = Fin 0.000000001 /\
  FinancialService.erf PInf = Fin 1 /\
  FinancialService.erf NInf = Fin (-1) /\
  FinancialService.erf NaN = NaN.
Proof.
  repeat split.
  - intros x Hx. rewrite neg_Fin, !erf_Fin, neg_Fin. f_equal.
    now apply aerf_opp.
  - intros x. exists (Analytic.erf x). split; [apply erf_Fin|apply aerf_bounds].
  - now rewrite erf_Fin, aerf_0.
  - apply erf_PInf.
  - apply erf_NInf.
Qed.

Lemma normCdf_PInf : normCdf PInf = Fin 1.
Proof.
  unfold normCdf. rewrite sqrt_Fin by lra.
  cbn [div sgn sign_mul]. pose proof (sqrt_lt_R0 2 ltac:(lra)) as H.
  destruct (Req_dec_T (sqrt 2) 0) as [e|_]; [lra|].
  rewrite Rsign_pos by exact H. cbn [sign_mul inf_of_sign].
  rewrite erf_PInf. fin_arith. f_equal. lra.
Qed.

Lemma normCdf_NInf : normCdf NInf = Fin 0.
Proof.
  unfold normCdf. rewrite sqrt_Fin by lra.
  cbn [div sgn sign_mul]. pose proof (sqrt_lt_R0 2 ltac:(lra)) as H.
  destruct (Req_dec_T (sqrt 2) 0) as [e|_]; [lra|].
  rewrite Rsign_pos by exact H. cbn [sign_mul inf_of_sign].
  rewrite erf_NInf. fin_arith. f_equal. lra.
Qed.

(** X2.  [normCdf (x) + normCdf (-x)] is exactly 1 for every finite
    non-zero [x] and [1.000000001] at zero, where [normCdf (0)] is
    [0.5000000005]; every finite value lies in [[0, 1]]; and the limits
    are exact: [normCdf (+Infinity) = 1], [normCdf (-Infinity) = 0]. *)
Theorem normCdf_reflection :
  (forall x : R,
     (normCdf (Fin x) + normCdf (- Fin x))%num
     = if Req_dec_T x 0 then Fin 1.000000001 else Fin 1) /\
  normCdf (Fin 0) = Fin 0.5000000005 /\
  (forall x : R, exists y : R, normCdf (Fin x) = Fin y /\ 0 <= y <= 1) /\
  normCdf PInf = Fin 1 /\ normCdf NInf = Fin 0.
Proof.
  repeat split.
  - intros x. rewrite neg_Fin, !normCdf_Fin, add_Fin.
    destruct (Req_dec_T x 0) as [->|n]; f_equal.
    + rewrite Ropp_0, anormCdf_0. lra.
    + now apply anormCdf_sym.
  - now rewrite normCdf_Fin, anormCdf_0.
  - intros x. exists (Analytic.normCdf x).
    split; [apply normCdf_Fin|apply anormCdf_bounds].
  - apply normCdf_PInf.
  - apply normCdf_NInf.
Qed.




(* ================================================================= *)
(** ** More on the pricer *)

(** X4.  Call and put from the same inputs share gamma, vega, [d1] and
    [d2], whatever the inputs.  On finite inputs with [S, K > 0] the
    call delta exceeds the put delta by exactly one, except in the
    degenerate branch at [S = K], where both deltas are zero. *)
Theorem call_put_greeks :
  (forall S K T sigma r : num,
     let c := bsm S K T sigma r Call in
     let p := bsm S K T sigma r Put in
     gamma (greeks c) = gamma (greeks p) /\
     vega (greeks c) = vega (greeks p) /\
     d1 c = d1 p /\ d2 c = d2 p) /\
  (forall S K T sigma r : R, 0 < S -> 0 < K ->
     (delta (greeks (bsm (Fin S) (Fin K) (Fin T) (Fin sigma) (Fin r) Call))
      - delta (greeks (bsm (Fin S) (Fin K) (Fin T) (Fin sigma) (Fin r) Put)))%num
     = if Rlt_dec 0 T then
         if Rlt_dec 0 sigma then Fin 1
         else if Req_dec_T S K then Fin 0 else Fin 1
       else if Req_dec_T S K then Fin 0 else Fin 1).
Proof.
  split.
  - intros S K T sigma r. unfold bsm.
    destruct ((T <=? Fin 0)%num || (sigma <=? Fin 0)%num)%bool;
      repeat split; reflexivity.
  - intros S K T sigma r HS HK.
    assert (Hfb : (Fin T <=? Fin 0)%num = true \/ (Fin sigma <=? Fin 0)%num = true ->
              (delta (greeks (bsm (Fin S) (Fin K) (Fin T) (Fin sigma) (Fin r) Call))
               - delta (greeks (bsm (Fin S) (Fin K) (Fin T) (Fin sigma) (Fin r) Put)))%num
              = if Req_dec_T S K then Fin 0 else Fin 1).
    { intros G.
      destruct (bsm_fallback_real S K (Fin T) (Fin sigma) (Fin r) G) as [EC EP].
      rewrite EC, EP. cbn [greeks delta]. rewrite sub_Fin.
      destruct (Req_dec_T S K) as [e|n], (Rlt_dec K S), (Rlt_dec S K);
        f_equal; lra. }
    destruct (Rlt_dec 0 T) as [HT|HT]; [destruct (Rlt_dec 0 sigma) as [Hs|Hs]|].
    + rewrite (@bsm_Call_Fin S K T sigma r HS HK HT Hs).
      rewrite (@bsm_Put_Fin S K T sigma r HS HK HT Hs).
      cbn [greeks delta]. rewrite sub_Fin. f_equal. lra.
    + apply Hfb. right. apply Rleb_true. lra.
    + apply Hfb. left. apply Rleb_true. lra.
Qed.

Lemma call_put_greeks_witness :
  0 < 100 /\
  (delta (greeks (bsm (Fin 100) (Fin 100) (Fin 0) (Fin 0.2) (Fin 0.07) Call))
   - delta (greeks (bsm (Fin 100) (Fin 100) (Fin 0) (Fin 0.2) (Fin 0.07) Put)))%num
  = Fin 0.
Proof.
  assert (H : 0 < 100) by lra. split; [exact H|].
  rewrite (proj2 call_put_greeks 100 100 0 0.2 0.07 H H).
  destruct (Rlt_dec 0 0) as [c|_]; [lra|].
  destruct (Req_dec_T 100 100) as [_|n]; [reflexivity|now elim n].
Defined.

(** X5.  In the degenerate branch ([T <= 0] or [sigma <= 0]) the prices
    of a call and a put on finite [S] and [K] are non-negative and
    differ by exactly [S - K]: parity holds without discounting,
    whatever the rate. *)
Theorem fallback_parity (S K : R) (T sigma r : num) :
  (T <=? Fin 0)%num = true \/ (sigma <=? Fin 0)%num = true ->
  (price (bsm (Fin S) (Fin K) T sigma r Call)
   - price (bsm (Fin S) (Fin K) T sigma r Put))%num = Fin (S - K) /\
  (Fin 0 <=? price (bsm (Fin S) (Fin K) T sigma r Call))%num = true /\
  (Fin 0 <=? price (bsm (Fin S) (Fin K) T sigma r Put))%num = true.
Proof.
  intros G.
  destruct (bsm_fallback_real S K T sigma r G) as [EC EP].
  rewrite EC, EP. cbn [price]. rewrite sub_Fin. unfold le.
  pose proof (Rmax_l 0 (S - K)). pose proof (Rmax_l 0 (K - S)).
  rewrite !Rleb_true by assumption.
  repeat split. f_equal. unfold Rmax.
  destruct (Rle_dec 0 (S - K)), (Rle_dec 0 (K - S)); lra.
Qed.

Lemma fallback_parity_witness :
  (Fin 0.2 <=? Fin 0)%num = false /\ (Fin 0 <=? Fin 0)%num = true /\
  (price (bsm (Fin 90) (Fin 100) (Fin 0) (Fin 0.2) (Fin 0.07) Call)
   - price (bsm (Fin 90) (Fin 100) (Fin 0) (Fin 0.2) (Fin 0.07) Put))%num
  = Fin (90 - 100).
Proof.
  assert (H : (Fin 0 <=? Fin 0)%num = true) by (apply Rleb_true; lra).
  split; [apply Rleb_false; lra|]. split; [exact H|].
  exact (proj1 (fallback_parity 90 100 (Fin 0) (Fin 0.2) (Fin 0.07)
                  (or_introl H))).
Defined.

(** X6.  For finite inputs with [S, K > 0], in both branches: the rho
    of a call is non-negative, the rho of a put is non-positive, and
    the theta of a call is non-positive whenever the rate is
    non-negative. *)
Theorem rho_theta_signs S K T sigma r :
  0 < S -> 0 < K ->
  let c := greeks (bsm (Fin S) (Fin K) (Fin T) (Fin sigma) (Fin r) Call) in
  let p := greeks (bsm (Fin S) (Fin K) (Fin T) (Fin sigma) (Fin r) Put) in
  (Fin 0 <=? rho c)%num = true /\
  (rho p <=? Fin 0)%num = true /\
  (0 <= r -> (theta c <=? Fin 0)%num = true).
Proof.
  intros HS HK c p. subst c p.
  assert (Hfb : (Fin T <=? Fin 0)%num = true \/ (Fin sigma <=? Fin 0)%num = true ->
    (Fin 0 <=? rho (greeks (bsm (Fin S) (Fin K) (Fin T) (Fin sigma) (Fin r) Call)))%num = true /\
    (rho (greeks (bsm (Fin S) (Fin K) (Fin T) (Fin sigma) (Fin r) Put)) <=? Fin 0)%num = true /\
    (0 <= r ->
     (theta (greeks (bsm (Fin S) (Fin K) (Fin T) (Fin sigma) (Fin r) Call)) <=? Fin 0)%num = true)).
  { intros G.
    destruct (bsm_fallback_real S K (Fin T) (Fin sigma) (Fin r) G) as [EC EP].
    rewrite EC, EP. cbn [greeks rho theta]. unfold le.
    rewrite !Rleb_true by lra. repeat split. }
  destruct (Rlt_dec 0 T) as [HT|HT]; [destruct (Rlt_dec 0 sigma) as [Hs|Hs]|].
  - rewrite (@bsm_Call_Fin S K T sigma r HS HK HT Hs).
    rewrite (@bsm_Put_Fin S K T sigma r HS HK HT Hs).
    cbn [greeks rho theta]. unfold le.
    set (x1 := Analytic.D1 S K T sigma r).
    set (x2 := Analytic.D2 S K T sigma r).
    pose proof (anormCdf_bounds x2) as HN.
    pose proof (anormCdf_bounds (- x2)) as HN'.
    pose proof (anormPdf_pos x1) as Hphi.
    pose proof (sqrt_lt_R0 _ HT) as HsqT.
    pose proof (exp_pos (- r * T)) as He.
    set (E := exp (- r * T)) in *.
    assert (HKT : 0 < K * T * E) by (repeat apply Rmult_lt_0_compat; assumption).
    assert (Hrc : 0 <= K * T * E * Analytic.normCdf x2) by nra.
    assert (Hrp : - K * T * E * Analytic.normCdf (- x2) <= 0) by nra.
    rewrite (Rleb_true Hrc), (Rleb_true Hrp).
    split; [reflexivity|]. split; [reflexivity|].
    intros Hr. apply Rleb_true.
    assert (Hnum : 0 < S * Analytic.normPdf x1 * sigma)
      by (apply Rmult_lt_0_compat; [apply Rmult_lt_0_compat|]; assumption).
    assert (Hq : 0 < S * Analytic.normPdf x1 * sigma / (2 * sqrt T))
      by (apply Rdiv_lt_0_compat; lra).
    assert (HKE : 0 < K * E) by (apply Rmult_lt_0_compat; assumption).
    assert (Hrk : 0 <= r * K * E * Analytic.normCdf x2).
    { replace (r * K * E * Analytic.normCdf x2)
        with (r * ((K * E) * Analytic.normCdf x2)) by ring.
      apply Rmult_le_pos; [exact Hr|]. apply Rmult_le_pos; lra. }
    replace (- (S * Analytic.normPdf x1 * sigma) / (2 * sqrt T))
      with (- (S * Analytic.normPdf x1 * sigma / (2 * sqrt T)))
      by (field; lra).
    lra.
  - apply Hfb. right. apply Rleb_true. lra.
  - apply Hfb. left. apply Rleb_true. lra.
Qed.

Lemma rho_theta_signs_witness :
  0 < 100 /\ 0 < 95 /\
  (Fin 0 <=? rho (greeks (bsm (Fin 100) (Fin 95) (Fin 0.25) (Fin 0.2)
                              (Fin 0.07) Call)))%num = true.
Proof.
  assert (H100 : 0 < 100) by lra. assert (H95 : 0 < 95) by lra.
  split; [exact H100|]. split; [exact H95|].
  exact (proj1 (rho_theta_signs 100 95 0.25 0.2 0.07 H100 H95)).
Defined.

Lemma normPdf_NInf : normPdf NInf = Fin 0.
Proof.
  unfold normPdf, Math_PI. rewrite mul_Fin.
  rewrite sqrt_Fin by (pose proof PI_RGT_0; lra).
  rewrite div_Fin by (pose proof sqrt2PI_pos; lra).
  cbn [neg mul sgn]. unfold Rsign.
  destruct (Rlt_dec 0 (- (0.5))) as [c|_]; [lra|].
  destruct (Rlt_dec (- (0.5)) 0) as [_|c]; [|lra].
  cbn [sign_mul inf_of_sign mul sgn Math_exp].
  f_equal. ring.
Qed.

(** X7.  At a spot of zero, with [K, T, sigma > 0], the analytic branch
    runs through [log (0) = -Infinity]: the call is worth 0 with delta
    0, the put is worth [K e^(-rT)] with delta -1, vega is 0, and gamma
    is [0 / 0], that is NaN. *)
Theorem bsm_zero_spot K T sigma r :
  0 < K -> 0 < T -> 0 < sigma ->
  let c := bsm (Fin 0) (Fin K) (Fin T) (Fin sigma) (Fin r) Call in
  let p := bsm (Fin 0) (Fin K) (Fin T) (Fin sigma) (Fin r) Put in
  price c = Fin 0 /\ delta (greeks c) = Fin 0 /\
  price p = Fin (K * exp (- r * T)) /\ delta (greeks p) = Fin (-1) /\
  d1 c = NInf /\ d2 c = NInf /\
  vega (greeks c) = Fin 0 /\ gamma (greeks c) = NaN /\ gamma (greeks p) = NaN.
Proof.
  intros HK HT Hs c p. subst c p.
  pose proof (sqrt_lt_R0 _ HT) as HsqT.
  assert (Hsig : 0 < sigma * sqrt T) by (apply Rmult_lt_0_compat; assumption).
  assert (Ed1 :
    ((Math_log (Fin 0 / Fin K) + (Fin r + Fin 0.5 * Fin sigma * Fin sigma) * Fin T)
     / (Fin sigma * Math_sqrt (Fin T)))%num = NInf).
  { rewrite div_Fin by lra. replace (0 / K) with 0 by (field; lra).
    unfold Math_log. destruct (Rlt_dec 0 0) as [c|_]; [lra|].
    rewrite sqrt_Fin by lra. fin_arith. cbn [add div sgn].
    destruct (Req_dec_T (sigma * sqrt T) 0) as [e|_]; [lra|].
    rewrite Rsign_pos by exact Hsig. reflexivity. }
  assert (Ed2 : (NInf - Fin sigma * Math_sqrt (Fin T))%num = NInf).
  { rewrite sqrt_Fin by lra. reflexivity. }
  unfold bsm. rewrite (guard_false HT Hs). cbv zeta.
  rewrite !Ed1, !Ed2. cbn [neg].
  rewrite normCdf_NInf, normCdf_PInf, normPdf_NInf.
  rewrite sqrt_Fin by lra. fin_arith.
  cbn [price greeks delta gamma vega d1 d2].
  replace (0 * sigma * sqrt T) with 0 by ring.
  rewrite div_Fin_zero, Rsign_zero. cbn [inf_of_sign].
  repeat split; f_equal; lra.
Qed.

Lemma bsm_zero_spot_witness :
  0 < 100 /\ 0 < 0.25 /\ 0 < 0.2 /\
  gamma (greeks (bsm (Fin 0) (Fin 100) (Fin 0.25) (Fin 0.2) (Fin 0.07) Call))
  = NaN.
Proof.
  assert (HK : 0 < 100) by lra. assert (HT : 0 < 0.25) by lra.
  assert (Hs : 0 < 0.2) by lra.
  split; [exact HK|]. split; [exact HT|]. split; [exact Hs|].
  destruct (bsm_zero_spot 100 0.25 0.2 0.07 HK HT Hs)
    as [_ [_ [_ [_ [_ [_ [_ [Hg _]]]]]]]].
  exact Hg.
Defined.

(* ================================================================= *)
(** ** More on the summary statistics *)

Lemma mapi_from_length {A} (f : A -> nat -> num) (l : list A) i :
  length (mapi_from i f l) = length l.
Proof.
  revert i. induction l as [|x l IH]; intros i; cbn; [reflexivity|].
  now rewrite IH.
Qed.

Lemma mapi_from_pairwise (F : num -> num -> num) (pre V : list num) :
  mapi_from (length pre) (fun q i => F q (get (pre ++ V) i)) (tl V)
  = More.pairwise F V.
Proof.
  revert pre. induction V as [|v0 W IH]; intros pre; [reflexivity|].
  destruct W as [|v1 W']; [reflexivity|].
  cbn [tl mapi_from More.pairwise].
  unfold get at 1. rewrite nth_middle. f_equal.
  specialize (IH (pre ++ [v0])).
  rewrite <- app_assoc, length_app, Nat.add_comm in IH. exact IH.
Qed.

Lemma returns_logReturns (prices : list num) :
  mapi (fun p i => Math_log (p / get prices i)%num) (slice1 prices)
  = More.logReturns prices.
Proof.
  unfold mapi, slice1, More.logReturns.
  exact (mapi_from_pairwise (fun p1 p0 => Math_log (p1 / p0)%num) [] prices).
Qed.

Lemma pairwise_length F (P : list num) :
  length (More.pairwise F P) = (length P - 1)%nat.
Proof.
  induction P as [|p0 W IH]; [reflexivity|].
  destruct W as [|p1 W']; [reflexivity|].
  cbn [More.pairwise length] in *. rewrite IH. lia.
Qed.

(** The statistics depend on the prices through the log returns only. *)
Lemma statistics_of_returns (prices prices' : list num) :
  More.logReturns prices = More.logReturns prices' ->
  calculateSummaryStatistics prices = calculateSummaryStatistics prices'.
Proof.
  intros H. unfold calculateSummaryStatistics.
  now rewrite !returns_logReturns, H.
Qed.

(** X8.  With fewer than three prices, the empty series included,
    [calculateSummaryStatistics] returns no log returns and zero
    volatility, skewness and kurtosis. *)
Theorem statistics_short_series (prices : list num) :
  (length prices < 3)%nat ->
  calculateSummaryStatistics prices = mkStats [] (Fin 0) (Fin 0) (Fin 0).
Proof.
  intros H. unfold calculateSummaryStatistics.
  rewrite returns_logReturns. unfold More.logReturns.
  rewrite pairwise_length.
  assert (E : (length prices - 1 <? 2)%nat = true) by (apply Nat.ltb_lt; lia).
  now rewrite E.
Qed.

Lemma statistics_short_series_witness :
  (length [Fin 100; Fin 101] < 3)%nat /\
  calculateSummaryStatistics [Fin 100; Fin 101]
  = mkStats [] (Fin 0) (Fin 0) (Fin 0).
Proof.
  assert (H : (length [Fin 100; Fin 101] < 3)%nat) by (cbn; lia).
  split; [exact H|]. exact (statistics_short_series [Fin 100; Fin 101] H).
Defined.

Lemma Rsign_scale k x : 0 < k -> Rsign (k * x) = Rsign x.
Proof.
  intros Hk. unfold Rsign.
  destruct (Rlt_dec 0 (k * x)), (Rlt_dec 0 x); try reflexivity; try nra.
  destruct (Rlt_dec (k * x) 0), (Rlt_dec x 0); try reflexivity; nra.
Qed.

Lemma logReturns_scale (k : R) (l : list R) :
  0 < k ->
  More.logReturns (map (fun x => Fin (k * x)) l) = More.logReturns (map Fin l).
Proof.
  intros Hk. unfold More.logReturns.
  induction l as [|p0 W IH]; [reflexivity|].
  destruct W as [|p1 W']; [reflexivity|].
  cbn [map More.pairwise] in *. rewrite IH. f_equal.
  destruct (Req_dec_T p0 0) as [->|Hp0].
  - rewrite Rmult_0_r, !div_Fin_zero. now rewrite Rsign_scale.
  - rewrite !div_Fin by (try assumption; apply Rmult_integral_contrapositive_currified; lra).
    do 2 f_equal. field. split; lra.
Qed.

(** X9.  The summary statistics do not depend on the unit of the
    prices: multiplying every finite price by the same positive factor
    leaves the log returns, the volatility, the skewness and the
    kurtosis unchanged. *)
Theorem statistics_scale_invariant (k : R) (l : list R) :
  0 < k ->
  calculateSummaryStatistics (map (fun x => Fin (k * x)) l)
  = calculateSummaryStatistics (map Fin l).
Proof.
  intros Hk. apply statistics_of_returns. now apply logReturns_scale.
Qed.

Lemma statistics_scale_invariant_witness :
  0 < 100 /\
  calculateSummaryStatistics [Fin (100 * 1); Fin (100 * 2); Fin (100 * 3);
                              Fin (100 * 5)]
  = calculateSummaryStatistics [Fin 1; Fin 2; Fin 3; Fin 5].
Proof.
  assert (H : 0 < 100) by lra. split; [exact H|].
  exact (statistics_scale_invariant 100 [1; 2; 3; 5] H).
Defined.

Lemma total_Fin (rs : list R) : Spec.total (map Fin rs) = Fin (More.sumR rs).
Proof.
  induction rs as [|x rs IH]; [reflexivity|].
  cbn [map Spec.total More.sumR fold_right]. now rewrite IH.
Qed.

Lemma sumR_squares_nonneg (m : R) (rs : list R) :
  0 <= More.sumR (map (fun x => (x - m) * (x - m)) rs).
Proof.
  unfold More.sumR.
  induction rs as [|x rs IH]; cbn [map fold_right]; [lra|].
  pose proof (Rle_0_sqr (x - m)) as H. unfold Rsqr in H. cbv beta. lra.
Qed.

Lemma logReturns_positive (l : list R) :
  Forall (fun x => 0 < x) l ->
  exists rs : list R,
    More.logReturns (map Fin l) = map Fin rs /\
    length rs = (length l - 1)%nat.
Proof.
  unfold More.logReturns.
  induction l as [|p0 W IH]; intros H; [exists []; split; reflexivity|].
  destruct W as [|p1 W']; [exists []; split; reflexivity|].
  inversion H as [|? ? Hp0 HW]; subst.
  destruct (IH HW) as [rs [E L]].
  exists (ln (p1 / p0) :: rs). split.
  - cbn [map More.pairwise] in *. rewrite E.
    rewrite div_Fin by lra.
    rewrite log_Fin; [reflexivity|].
    inversion HW; subst. now apply Rdiv_lt_0_compat.
  - cbn [length] in *. lia.
Qed.

(** X10.  On at least three finite positive prices the log returns are
    one fewer than the prices and all finite, and the annualised
    volatility is a finite non-negative number. *)
Theorem volatility_finite (l : list R) :
  Forall (fun x => 0 < x) l -> (3 <= length l)%nat ->
  let st := calculateSummaryStatistics (map Fin l) in
  length (dailyLogReturns st) = (length l - 1)%nat /\
  Forall (fun x => isFinite x = true) (dailyLogReturns st) /\
  exists v : R, annualizedVolatility st = Fin v /\ 0 <= v.
Proof.
  intros Hpos Hlen st. subst st.
  destruct (logReturns_positive l Hpos) as [rs [E L]].
  unfold calculateSummaryStatistics.
  rewrite returns_logReturns, E, length_map.
  assert (Hn : (length rs <? 2)%nat = false) by (apply Nat.ltb_ge; lia).
  rewrite Hn. cbv zeta.
  cbn [dailyLogReturns annualizedVolatility].
  split; [now rewrite length_map|]. split.
  { apply Forall_forall. intros x Hx. apply in_map_iff in Hx.
    destruct Hx as [y [<- _]]. reflexivity. }
  assert (Hn2 : 2 <= INR (length rs)) by (apply INR_ge_2; lia).
  unfold of_nat.
  rewrite (fold_left_total_0 (fun r => r)), map_id_num, total_Fin.
  rewrite div_Fin by lra.
  set (m := More.sumR rs / INR (length rs)).
  rewrite (fold_left_total_0 (fun r => Math_pow (r - Fin m)%num 2)).
  rewrite map_map. cbn [Math_pow].
  assert (Esq : map (fun x => ((Fin x - Fin m) * (Fin x - Fin m))%num) rs
                = map Fin (map (fun x => (x - m) * (x - m)) rs)).
  { rewrite map_map. reflexivity. }
  rewrite Esq, total_Fin, sub_Fin, div_Fin by lra.
  pose proof (sumR_squares_nonneg m rs) as Hsq.
  set (q := More.sumR (map (fun x => (x - m) * (x - m)) rs)) in *.
  assert (Hq : 0 <= q / (INR (length rs) - 1)).
  { apply Rmult_le_pos; [exact Hsq|]. left. apply Rinv_0_lt_compat. lra. }
  rewrite sqrt_Fin by exact Hq. rewrite sqrt_Fin by lra. rewrite mul_Fin.
  eexists. split; [reflexivity|].
  apply Rmult_le_pos; apply sqrt_pos.
Qed.

Lemma volatility_finite_witness :
  Forall (fun x => 0 < x) [100; 101; 99] /\
  (3 <= length [100; 101; 99])%nat /\
  exists v : R,
    annualizedVolatility
      (calculateSummaryStatistics (map Fin [100; 101; 99])) = Fin v /\ 0 <= v.
Proof.
  assert (H : Forall (fun x => 0 < x) [100; 101; 99])
    by (repeat constructor; lra).
  assert (H3 : (3 <= length [100; 101; 99])%nat) by apply le_n.
  split; [exact H|]. split; [exact H3|].
  exact (proj2 (proj2 (volatility_finite [100; 101; 99] H H3))).
Defined.

(* ================================================================= *)
(** ** Sorting numbers *)

Lemma insert_by_In {A} (cmp : A -> A -> num) (x y : A) (l : list A) :
  In y (insert_by cmp x l) -> y = x \/ In y l.
Proof.
  intros H. apply (Permutation_in _ (insert_by_perm cmp x l)) in H.
  destruct H as [<-|H]; [now left|now right].
Qed.

Lemma insert_sorted (x : num) (s : list num) :
  x <> NaN -> Forall (fun y => y <> NaN) s ->
  More.nondecreasing s ->
  More.nondecreasing (insert_by (fun a b => a - b)%num x s).
Proof.
  intros Hx Hs Hsorted. unfold More.nondecreasing in *.
  induction Hsorted as [|y s Hsorted IH Hy]; cbn [insert_by].
  - repeat constructor.
  - inversion Hs as [|? ? Hyn Hsn]; subst.
    rewrite gt_sub by assumption.
    destruct (y <? x)%num eqn:Hyx.
    + constructor; [now apply IH|].
      apply Forall_forall. intros z Hz. apply insert_by_In in Hz.
      destruct Hz as [->|Hz]; [now apply lt_le_incl|].
      rewrite Forall_forall in Hy. now apply Hy.
    + assert (Hxy : (x <=? y)%num = true).
      { rewrite lt_not_le in Hyx by assumption.
        now apply negb_false_iff in Hyx. }
      constructor; [now constructor|].
      constructor; [exact Hxy|].
      apply Forall_forall. intros z Hz. rewrite Forall_forall in Hy.
      eapply le_trans; [exact Hxy|now apply Hy].
Qed.

Lemma sort_sorted (l : list num) :
  Forall (fun y => y <> NaN) l ->
  More.nondecreasing (sort_by (fun a b => a - b)%num l).
Proof.
  induction l as [|x l IH]; intros H; cbn [sort_by]; [constructor|].
  inversion H as [|? ? Hx Hl]; subst.
  apply insert_sorted; [exact Hx| |now apply IH].
  apply Forall_forall. intros y Hy.
  apply (Permutation_in _ (sort_by_perm _ l)) in Hy.
  rewrite Forall_forall in Hl. now apply Hl.
Qed.

Lemma le_neq_lt (a b : num) :
  (a <=? b)%num = true -> a <> b -> (a <? b)%num = true.
Proof.
  intros H Hne. destruct a, b; num_cases.
  exfalso. apply Hne. f_equal. lra.
Qed.

Lemma nondecreasing_NoDup_ascending (l : list num) :
  More.nondecreasing l -> NoDup l -> More.ascending l.
Proof.
  unfold More.nondecreasing, More.ascending.
  induction 1 as [|x l Hs IH Hx]; intros Hnd; [constructor|].
  inversion Hnd as [|? ? Hnin Hnd']; subst.
  constructor; [now apply IH|].
  rewrite Forall_forall in *. intros y Hy.
  apply le_neq_lt; [now apply Hx|]. intros ->. contradiction.
Qed.

(* ================================================================= *)
(** ** More on the option chain *)

Lemma generateOptionChain_form (c hv rfr : num) (existing : list num) :
  generateOptionChain c hv rfr existing
  = map (fun m =>
           (m, flat_map (fun k => [More.chainOption c hv rfr m k Call;
                                   More.chainOption c hv rfr m k Put])
                        (strikes c existing)))
        [Fin 30; Fin 60; Fin 90].
Proof. reflexivity. Qed.

Lemma round_not_NaN (x : R) : Math_round (Fin x) <> NaN.
Proof. discriminate. Qed.

Lemma strikes_not_NaN (c : R) (existing : list num) :
  Forall (fun k => k <> NaN) existing ->
  Forall (fun k => k <> NaN) (strikes (Fin c) existing).
Proof.
  intros H. apply Forall_forall. intros k Hk.
  apply strikes_In in Hk. unfold Spec.mergedStrikes in Hk.
  apply in_app_or in Hk. destruct Hk as [Hk|Hk].
  - cbn [In] in Hk.
    destruct Hk as [<-|[<-|[<-|[<-|[<-|[]]]]]]; rewrite mul_Fin; discriminate.
  - rewrite Forall_forall in H. now apply H.
Qed.

(** X11.  For a finite current price and existing strikes that are not
    NaN, the strikes of the chain are in strictly ascending order, and
    under every maturity the options follow that order, the call of a
    strike directly before its put. *)
Theorem chain_strikes_ascending (c : R) (hv rfr : num) (existing : list num) :
  Forall (fun k => k <> NaN) existing ->
  More.ascending (strikes (Fin c) existing) /\
  (forall m opts,
     In (m, opts) (generateOptionChain (Fin c) hv rfr existing) ->
     map (fun o => (strike o, type o)) opts
     = flat_map (fun k => [(k, Call); (k, Put)]) (strikes (Fin c) existing)).
Proof.
  intros H. split.
  - apply nondecreasing_NoDup_ascending; [|apply strikes_NoDup].
    unfold strikes. apply sort_sorted.
    apply Forall_forall. intros k Hk.
    pose proof (strikes_not_NaN c existing H) as Hall.
    rewrite Forall_forall in Hall. apply Hall.
    unfold strikes.
    now apply (Permutation_in _ (Permutation_sym (sort_by_perm _ _))).
  - intros m opts Hin. rewrite generateOptionChain_form in Hin.
    apply in_map_iff in Hin. destruct Hin as [mat [E _]].
    injection E as <- <-.
    induction (strikes (Fin c) existing) as [|k l IH]; [reflexivity|].
    cbn [flat_map map app]. now rewrite IH.
Qed.

Lemma chain_strikes_ascending_witness :
  Forall (fun k => k <> NaN) [Fin 123; Fin 95] /\
  More.ascending (strikes (Fin 100) [Fin 123; Fin 95]).
Proof.
  assert (H : Forall (fun k => k <> NaN) [Fin 123; Fin 95])
    by (repeat constructor; discriminate).
  split; [exact H|].
  exact (proj1 (chain_strikes_ascending 100 (Fin 0.2) (Fin 7)
                  [Fin 123; Fin 95] H)).
Defined.

Lemma chain_ids (c hv rfr m : num) (l : list num) :
  map id (flat_map (fun k => [More.chainOption c hv rfr m k Call;
                              More.chainOption c hv rfr m k Put]) l)
  = flat_map (fun k => [ChainId k m Call; ChainId k m Put]) l.
Proof.
  induction l as [|k l IH]; [reflexivity|].
  cbn [flat_map map app]. now rewrite IH.
Qed.

Lemma ids_In (m : num) (l : list num) (i : OptionId) :
  In i (flat_map (fun k => [ChainId k m Call; ChainId k m Put]) l) ->
  exists k ty, In k l /\ i = ChainId k m ty.
Proof.
  intros H. apply in_flat_map in H. destruct H as [k [Hk [<-|[<-|[]]]]].
  - now exists k, Call.
  - now exists k, Put.
Qed.

Lemma ids_NoDup (m : num) (l : list num) :
  NoDup l -> NoDup (flat_map (fun k => [ChainId k m Call; ChainId k m Put]) l).
Proof.
  induction 1 as [|k l Hnin Hnd IH]; cbn [flat_map app]; [constructor|].
  constructor.
  - intros [H|H]; [discriminate|].
    apply ids_In in H. destruct H as [k' [ty [Hk' E]]].
    injection E as -> _. contradiction.
  - constructor; [|exact IH].
    intros H. apply ids_In in H. destruct H as [k' [ty [Hk' E]]].
    injection E as -> _. contradiction.
Qed.

(** X12.  No two options of a generated chain share an id, across all
    strikes, maturities and types, whatever the inputs. *)
Theorem chain_ids_unique (c hv rfr : num) (existing : list num) :
  NoDup (map id (flat (Object_values (generateOptionChain c hv rfr existing)))).
Proof.
  rewrite generateOptionChain_form. unfold flat, Object_values.
  cbn [map snd concat]. rewrite app_nil_r, !map_app, !chain_ids.
  pose proof (strikes_NoDup c existing) as Hnd.
  assert (Hdiff : forall m m' i, m <> m' ->
            In i (flat_map (fun k => [ChainId k m Call; ChainId k m Put])
                           (strikes c existing)) ->
            ~ In i (flat_map (fun k => [ChainId k m' Call; ChainId k m' Put])
                             (strikes c existing))).
  { intros m m' i Hm H H'.
    apply ids_In in H. destruct H as [k [ty [_ ->]]].
    apply ids_In in H'. destruct H' as [k' [ty' [_ E]]].
    injection E as _ E _. contradiction. }
  assert (H36 : Fin 30 <> Fin 60) by (intros E; injection E as E; lra).
  assert (H39 : Fin 30 <> Fin 90) by (intros E; injection E as E; lra).
  assert (H69 : Fin 60 <> Fin 90) by (intros E; injection E as E; lra).
  apply NoDup_app; [now apply ids_NoDup| |].
  - apply NoDup_app; [now apply ids_NoDup|now apply ids_NoDup|].
    intros i. now apply Hdiff.
  - intros i Hi Hi'. apply in_app_or in Hi'.
    destruct Hi' as [Hi'|Hi'];
      [exact (Hdiff _ _ i H36 Hi Hi')|exact (Hdiff _ _ i H39 Hi Hi')].
Qed.

Lemma chain_option_In (c hv rfr : num) (existing : list num) (o : Option_) :
  In o (flat (Object_values (generateOptionChain c hv rfr existing))) ->
  exists m k ty,
    In m [Fin 30; Fin 60; Fin 90] /\ In k (strikes c existing) /\
    o = More.chainOption c hv rfr m k ty.
Proof.
  rewrite generateOptionChain_form. unfold flat, Object_values.
  intros Ho. apply in_concat in Ho. destruct Ho as [opts [Hopts Ho]].
  apply in_map_iff in Hopts. destruct Hopts as [[m opts'] [E Hin]].
  cbn [snd] in E. subst opts'.
  apply in_map_iff in Hin. destruct Hin as [mat [E Hmat]].
  injection E as <- <-.
  apply in_flat_map in Ho. destruct Ho as [k [Hk [<-|[<-|[]]]]].
  - now exists mat, k, Call.
  - now exists mat, k, Put.
Qed.

(** X13.  At a current price [c > 0], an option of the chain struck at
    [c] is priced the same under its implied volatility and under the
    historical volatility: price and Greeks of the two sets of fields
    coincide. *)
Theorem at_the_money_fields (c : R) (hv rfr : num) (existing : list num)
    (o : Option_) :
  0 < c ->
  In o (flat (Object_values (generateOptionChain (Fin c) hv rfr existing))) ->
  strike o = Fin c ->
  bsmPrice o = bsmPriceHistVol o /\ opt_greeks o = greeksHistVol o.
Proof.
  intros Hc Ho Hk.
  apply chain_option_In in Ho. destruct Ho as [m [k [ty [_ [_ ->]]]]].
  cbn [strike More.chainOption] in Hk. subst k.
  unfold More.chainOption. cbv zeta.
  cbn [bsmPrice bsmPriceHistVol opt_greeks greeksHistVol].
  unfold More.smileIv. rewrite (smile_at_the_money c hv Hc).
  split; reflexivity.
Qed.

Lemma strikes_cons_100 :
  In (Fin 100) (strikes (Fin 100) []).
Proof.
  apply strikes_In. unfold Spec.mergedStrikes.
  right. right. left. rewrite mul_Fin. cbn [Math_round]. f_equal.
  assert (E : Int_part (100 * 1 + / 2) = 100%Z).
  { symmetry. apply Int_part_spec. lra. }
  now rewrite E.
Qed.

Lemma at_the_money_fields_witness :
  0 < 100 /\
  bsmPrice (More.chainOption (Fin 100) (Fin 0.2) (Fin 7) (Fin 30) (Fin 100) Call)
  = bsmPriceHistVol
      (More.chainOption (Fin 100) (Fin 0.2) (Fin 7) (Fin 30) (Fin 100) Call).
Proof.
  assert (Hc : 0 < 100) by lra. split; [exact Hc|].
  assert (Hin :
    In (More.chainOption (Fin 100) (Fin 0.2) (Fin 7) (Fin 30) (Fin 100) Call)
       (flat (Object_values (generateOptionChain (Fin 100) (Fin 0.2) (Fin 7) [])))).
  { rewrite generateOptionChain_form. unfold flat, Object_values.
    cbn [map snd concat]. apply in_or_app. left.
    apply in_flat_map. exists (Fin 100).
    split; [apply strikes_cons_100|now left]. }
  exact (proj1 (at_the_money_fields 100 (Fin 0.2) (Fin 7) [] _ Hc Hin eq_refl)).
Defined.

Lemma uniq_from_length (seen l : list num) :
  (length (uniq_from seen l) <= length l)%nat.
Proof.
  revert seen. induction l as [|x l IH]; intros seen; cbn [uniq_from length].
  - apply le_n.
  - destruct (in_dec num_eq_dec x seen); cbn [length].
    + specialize (IH seen). lia.
    + specialize (IH (x :: seen)). lia.
Qed.

(** Under each maturity the chain holds two options per distinct
    strike: at least two options, and at most ten plus two per existing
    strike. *)
Lemma chain_size (c hv rfr : num) (existing : list num) :
  forall m opts,
    In (m, opts) (generateOptionChain c hv rfr existing) ->
    length opts = (2 * length (strikes c existing))%nat /\
    (2 <= length opts <= 10 + 2 * length existing)%nat.
Proof.
  intros m opts Hin. rewrite generateOptionChain_form in Hin.
  apply in_map_iff in Hin. destruct Hin as [mat [E _]].
  injection E as <- <-.
  assert (L : length (flat_map (fun k => [More.chainOption c hv rfr mat k Call;
                                          More.chainOption c hv rfr mat k Put])
                               (strikes c existing))
              = (2 * length (strikes c existing))%nat).
  { induction (strikes c existing) as [|k l IH]; [reflexivity|].
    cbn [flat_map app length]. rewrite IH. lia. }
  split; [exact L|]. rewrite L.
  assert (Hup : (length (strikes c existing) <= 5 + length existing)%nat).
  { unfold strikes. rewrite sort_by_length. unfold Set_of.
    etransitivity; [apply uniq_from_length|].
    rewrite length_app. apply le_n. }
  assert (Hlow : (1 <= length (strikes c existing))%nat).
  { assert (Hin : In (Math_round (c * Fin 0.95)) (strikes c existing)).
    { apply strikes_In. left. reflexivity. }
    destruct (strikes c existing); [destruct Hin|cbn; lia]. }
  lia.
Qed.

(* ================================================================= *)
(** ** More on the portfolio aggregates *)

Lemma total_app (l1 l2 : list num) :
  Spec.total (l1 ++ l2) = add (Spec.total l1) (Spec.total l2).
Proof.
  induction l1 as [|x l1 IH]; cbn [app Spec.total].
  - now rewrite add_0_l.
  - now rewrite IH, add_assoc.
Qed.

Lemma greeks_fold_all (portfolio : list PortfolioPosition) (acc : Greeks) :
  fold_left (fun acc pos =>
      mkGreeks (delta acc + quantity pos * delta (opt_greeks (pos_option pos)))
               (gamma acc + quantity pos * gamma (opt_greeks (pos_option pos)))
               (vega acc + quantity pos * vega (opt_greeks (pos_option pos)))
               (theta acc + quantity pos * theta (opt_greeks (pos_option pos)))
               (rho acc + quantity pos * rho (opt_greeks (pos_option pos))))%num
      portfolio acc
  = More.addGreeks acc
      (mkGreeks (More.weighted delta portfolio) (More.weighted gamma portfolio)
                (More.weighted vega portfolio) (More.weighted theta portfolio)
                (More.weighted rho portfolio)).
Proof.
  revert acc. induction portfolio as [|pos l IH]; intros acc.
  - destruct acc. unfold More.addGreeks, More.weighted.
    cbn. now rewrite !add_0_r.
  - cbn [fold_left]. rewrite IH. unfold More.addGreeks, More.weighted.
    cbn [delta gamma vega theta rho map Spec.total].
    now rewrite !add_assoc.
Qed.

Lemma portfolio_greeks_weighted (portfolio : list PortfolioPosition) :
  calculatePortfolioGreeks portfolio
  = mkGreeks (More.weighted delta portfolio) (More.weighted gamma portfolio)
             (More.weighted vega portfolio) (More.weighted theta portfolio)
             (More.weighted rho portfolio).
Proof.
  unfold calculatePortfolioGreeks. rewrite greeks_fold_all.
  unfold More.addGreeks. cbn [delta gamma vega theta rho].
  now rewrite !add_0_l.
Qed.

Lemma weighted_app g (p1 p2 : list PortfolioPosition) :
  More.weighted g (p1 ++ p2) = add (More.weighted g p1) (More.weighted g p2).
Proof. unfold More.weighted. now rewrite map_app, total_app. Qed.

Lemma portfolio_greeks_additive_aux (p1 p2 : list PortfolioPosition) :
  calculatePortfolioGreeks p1
  = mkGreeks (More.weighted delta p1) (More.weighted gamma p1)
             (More.weighted vega p1) (More.weighted theta p1)
             (More.weighted rho p1) /\
  calculatePortfolioGreeks (p1 ++ p2)
  = More.addGreeks (calculatePortfolioGreeks p1) (calculatePortfolioGreeks p2).
Proof.
  split; [apply portfolio_greeks_weighted|].
  rewrite !portfolio_greeks_weighted. unfold More.addGreeks.
  cbn [delta gamma vega theta rho]. now rewrite !weighted_app.
Qed.





(* ================================================================= *)
(** ** More on value at risk *)

(** X16.  With fewer than three prices [calculatePortfolioVaR] returns
    four zeros, for every portfolio: two prices pass the explicit check
    but leave a single return. *)
Theorem var_short_series portfolio stockPrices config :
  (length stockPrices < 3)%nat ->
  calculatePortfolioVaR portfolio stockPrices config
  = mkVaR (Fin 0) (Fin 0) (Fin 0) (Fin 0).
Proof.
  intros H. apply var_degenerate. right. right.
  pose proof (finiteReturns_length
                (Spec.valueSeries portfolio stockPrices config)) as HV.
  unfold Spec.valueSeries in HV at 2. rewrite length_map in HV. lia.
Qed.

Lemma var_short_series_witness :
  (length [Fin 100; Fin 110] < 3)%nat /\
  calculatePortfolioVaR (Sample.stockOnly (Fin 110)) [Fin 100; Fin 110]
                        Sample.unitLots
  = mkVaR (Fin 0) (Fin 0) (Fin 0) (Fin 0).
Proof.
  assert (H : (length [Fin 100; Fin 110] < 3)%nat) by (cbn; lia).
  split; [exact H|].
  exact (var_short_series (Sample.stockOnly (Fin 110)) [Fin 100; Fin 110]
                          Sample.unitLots H).
Defined.

Lemma Int_part_le (x y : R) : x <= y -> (Int_part x <= Int_part y)%Z.
Proof.
  intros H. pose proof (base_Int_part x) as [Hx _].
  pose proof (base_Int_part y) as [_ Hy].
  assert (Hlt : IZR (Int_part x) < IZR (Int_part y + 1)).
  { rewrite plus_IZR. lra. }
  apply lt_IZR in Hlt. lia.
Qed.

Lemma Int_part_nonneg (x : R) : 0 <= x -> (0 <= Int_part x)%Z.
Proof.
  intros H. replace 0%Z with (Int_part 0); [now apply Int_part_le|].
  symmetry. apply Int_part_spec. lra.
Qed.

Lemma get_at_floor_nat (l : list num) (x : R) :
  0 <= x -> get_at l (Math_floor (Fin x)) = get l (Z.to_nat (Int_part x)).
Proof.
  intros Hx. apply get_at_floor.
  pose proof (Int_part_nonneg x Hx) as H0.
  rewrite INR_IZR_INZ, Z2Nat.id by exact H0.
  pose proof (base_Int_part x). lra.
Qed.

Lemma floor_index_lt (c : R) (n : nat) :
  0 <= c < 1 -> (1 <= n)%nat -> (Z.to_nat (Int_part (c * INR n)) < n)%nat.
Proof.
  intros Hc Hn.
  assert (Hn1 : 1 <= INR n) by (apply le_INR in Hn; simpl in Hn; lra).
  assert (Hx : 0 <= c * INR n) by nra.
  pose proof (Int_part_nonneg _ Hx) as H0.
  pose proof (base_Int_part (c * INR n)) as [Hb _].
  assert (Hlt : IZR (Int_part (c * INR n)) < IZR (Z.of_nat n)).
  { rewrite <- INR_IZR_INZ. nra. }
  apply lt_IZR in Hlt. lia.
Qed.

Lemma nondecreasing_get (l : list num) (i j : nat) :
  More.nondecreasing l -> Forall (fun y => y <> NaN) l ->
  (i <= j < length l)%nat -> (get l i <=? get l j)%num = true.
Proof.
  unfold More.nondecreasing, get. intros Hs. revert i j.
  induction Hs as [|x l Hs IH Hx]; intros i j Hn Hij; [cbn in Hij; lia|].
  inversion Hn as [|? ? Hxn Hln]; subst.
  destruct j as [|j].
  - assert (i = 0)%nat by lia. subst i. cbn [nth]. now apply le_refl.
  - destruct i as [|i]; cbn [nth].
    + rewrite Forall_forall in Hx. apply Hx. apply nth_In. cbn in Hij. lia.
    + apply IH; [exact Hln|]. cbn in Hij. lia.
Qed.

Lemma finiteReturns_finite (V : list num) :
  Forall (fun y => isFinite y = true) (Spec.finiteReturns V).
Proof.
  apply Forall_forall. intros y Hy. unfold Spec.finiteReturns in Hy.
  apply filter_In in Hy. exact (proj2 Hy).
Qed.

Lemma finite_not_NaN (l : list num) :
  Forall (fun y => isFinite y = true) l -> Forall (fun y => y <> NaN) l.
Proof.
  apply Forall_impl. intros y Hy ->. discriminate.
Qed.

Lemma quantile_finite (c : R) (Rt : list num) :
  0 <= c < 1 -> Rt <> [] ->
  Forall (fun y => isFinite y = true) Rt ->
  Spec.quantileReturn (Fin c) Rt
  = get (sort_by (fun a b => a - b)%num Rt)
        (Z.to_nat (Int_part (c * INR (length Rt)))) /\
  exists q : R, Spec.quantileReturn (Fin c) Rt = Fin q.
Proof.
  intros Hc Hne Hfin. unfold Spec.quantileReturn, of_nat.
  rewrite mul_Fin.
  assert (Hn : (1 <= length Rt)%nat) by (destruct Rt; [contradiction|cbn; lia]).
  assert (Hx : 0 <= c * INR (length Rt)).
  { apply Rmult_le_pos; [lra|apply pos_INR]. }
  rewrite get_at_floor_nat by exact Hx. split; [reflexivity|].
  assert (Hlt : (Z.to_nat (Int_part (c * INR (length Rt)))
                 < length (sort_by (fun a b => a - b)%num Rt))%nat).
  { rewrite sort_by_length. now apply floor_index_lt. }
  pose proof (nth_In _ NaN Hlt) as Hin.
  apply (Permutation_in _ (sort_by_perm _ Rt)) in Hin.
  rewrite Forall_forall in Hfin. specialize (Hfin _ Hin).
  unfold get. destruct (nth _ _ NaN) as [q| | |]; try discriminate.
  now exists q.
Qed.

(** X17.  When at least two finite returns remain and the last
    portfolio value is finite and non-negative, the historical figure
    at 99% is at least the one at 95%: its index [floor (0.01 n)] in
    the ascending returns is never beyond [floor (0.05 n)]. *)
Theorem historical_var_ordered portfolio stockPrices config (v : R) :
  length portfolio <> 0%nat ->
  (2 <= length (Spec.finiteReturns
                  (Spec.valueSeries portfolio stockPrices config)))%nat ->
  Spec.lastValue (Spec.valueSeries portfolio stockPrices config) = Fin v ->
  0 <= v ->
  let res := calculatePortfolioVaR portfolio stockPrices config in
  (historical95 res <=? historical99 res)%num = true.
Proof.
  intros Hne Hlen Hlast Hv res. subst res.
  rewrite (var_unfold portfolio stockPrices config Hne Hlen).
  cbn [historical95 historical99]. rewrite Hlast.
  set (Rt := Spec.finiteReturns (Spec.valueSeries portfolio stockPrices config))
    in *.
  assert (Hnil : Rt <> []) by (intros E; rewrite E in Hlen; cbn in Hlen; lia).
  pose proof (finiteReturns_finite
                (Spec.valueSeries portfolio stockPrices config)) as Hfin.
  fold Rt in Hfin.
  destruct (quantile_finite 0.05 Rt ltac:(lra) Hnil Hfin) as [E95 [q95 F95]].
  destruct (quantile_finite 0.01 Rt ltac:(lra) Hnil Hfin) as [E99 [q99 F99]].
  assert (Hord : (Spec.quantileReturn (Fin 0.01) Rt
                  <=? Spec.quantileReturn (Fin 0.05) Rt)%num = true).
  { rewrite E95, E99. apply nondecreasing_get.
    - apply sort_sorted. now apply finite_not_NaN.
    - apply finite_not_NaN. apply Forall_forall. intros y Hy.
      apply (Permutation_in _ (sort_by_perm _ Rt)) in Hy.
      rewrite Forall_forall in Hfin. now apply Hfin.
    - rewrite sort_by_length. split.
      + apply Z2Nat.inj_le.
        * apply Int_part_nonneg. apply Rmult_le_pos; [lra|apply pos_INR].
        * apply Int_part_nonneg. apply Rmult_le_pos; [lra|apply pos_INR].
        * apply Int_part_le. pose proof (pos_INR (length Rt)). nra.
      + apply floor_index_lt; [lra|]. lia. }
  rewrite F95, F99 in *. fin_arith. unfold le in *.
  apply Rleb_true.
  unfold Rleb in Hord. destruct (Rle_dec q99 q95); [|discriminate]. nra.
Qed.

Lemma historical_var_ordered_witness :
  length (Sample.stockOnly (Fin 100)) <> 0%nat /\ 0 <= 100 /\
  (historical95 (calculatePortfolioVaR (Sample.stockOnly (Fin 100))
                                       Sample.falling Sample.unitLots)
   <=? historical99 (calculatePortfolioVaR (Sample.stockOnly (Fin 100))
                                           Sample.falling Sample.unitLots))%num
  = true.
Proof.
  assert (Hne : length (Sample.stockOnly (Fin 100)) <> 0%nat) by discriminate.
  assert (Hv : 0 <= 100) by lra.
  assert (Hlen :
    (2 <= length (Spec.finiteReturns
                    (Spec.valueSeries (Sample.stockOnly (Fin 100))
                                      Sample.falling Sample.unitLots)))%nat).
  { rewrite falling_series, returns_of_three by lra. apply le_n. }
  assert (Hlast :
    Spec.lastValue
      (Spec.valueSeries (Sample.stockOnly (Fin 100)) Sample.falling
                        Sample.unitLots) = Fin 100).
  { rewrite falling_series. reflexivity. }
  split; [exact Hne|]. split; [exact Hv|].
  exact (historical_var_ordered (Sample.stockOnly (Fin 100)) Sample.falling
           Sample.unitLots 100 Hne Hlen Hlast Hv).
Defined.

Lemma quantile_first (c : R) (Rt : list num) :
  Rt <> [] -> Forall (fun y => isFinite y = true) Rt ->
  0 <= c -> c * INR (length Rt) < 1 ->
  exists worst : num,
    In worst Rt /\
    (forall r, In r Rt -> (worst <=? r)%num = true) /\
    Spec.quantileReturn (Fin c) Rt = worst.
Proof.
  intros Hne Hfin Hc Hlt.
  set (sorted := sort_by (fun a b => a - b)%num Rt).
  assert (Hlen : length sorted = length Rt) by apply sort_by_length.
  assert (Hn : (0 < length sorted)%nat).
  { rewrite Hlen. destruct Rt; [contradiction|cbn; lia]. }
  assert (Hnn : Forall (fun y => y <> NaN) sorted).
  { apply finite_not_NaN. apply Forall_forall. intros y Hy.
    apply (Permutation_in _ (sort_by_perm _ Rt)) in Hy.
    rewrite Forall_forall in Hfin. now apply Hfin. }
  exists (get sorted 0). split; [|split].
  - apply (Permutation_in _ (sort_by_perm (fun a b => a - b)%num Rt)).
    now apply nth_In.
  - intros r Hr.
    apply (Permutation_in _ (Permutation_sym
             (sort_by_perm (fun a b => a - b)%num Rt))) in Hr.
    apply (In_nth _ _ NaN) in Hr. destruct Hr as [j [Hj <-]].
    apply (nondecreasing_get sorted 0 j).
    + apply sort_sorted. now apply finite_not_NaN.
    + exact Hnn.
    + fold sorted in Hj. lia.
  - unfold Spec.quantileReturn, of_nat. rewrite mul_Fin. fold sorted.
    apply (get_at_floor sorted (c * INR (length Rt)) 0). cbn [INR].
    split; [|lra]. apply Rmult_le_pos; [exact Hc|apply pos_INR].
Qed.

(** X18.  With at least two and fewer than a hundred finite returns,
    the historical figure at 99% is the loss of the worst return: minus
    the smallest return times the last value.  With fewer than twenty,
    the figure at 95% is that same number. *)
Theorem historical_var_worst portfolio stockPrices config :
  length portfolio <> 0%nat ->
  (2 <= length (Spec.finiteReturns
                  (Spec.valueSeries portfolio stockPrices config)))%nat ->
  (length (Spec.finiteReturns
             (Spec.valueSeries portfolio stockPrices config)) < 100)%nat ->
  let V := Spec.valueSeries portfolio stockPrices config in
  let Rt := Spec.finiteReturns V in
  let res := calculatePortfolioVaR portfolio stockPrices config in
  exists worst : num,
    In worst Rt /\
    (forall r, In r Rt -> (worst <=? r)%num = true) /\
    historical99 res = (- worst * Spec.lastValue V)%num /\
    ((length Rt < 20)%nat -> historical95 res = historical99 res).
Proof.
  intros Hne Hlen Hlt V Rt res. subst res.
  rewrite (var_unfold portfolio stockPrices config Hne Hlen).
  fold V Rt. change (2 <= length Rt)%nat in Hlen.
  change (length Rt < 100)%nat in Hlt.
  cbn [historical95 historical99].
  assert (Hnil : Rt <> []) by (intros E; rewrite E in Hlen; cbn in Hlen; lia).
  pose proof (finiteReturns_finite V) as Hfin. fold Rt in Hfin.
  assert (H100 : INR (length Rt) < 100).
  { apply lt_INR in Hlt. replace 100 with (INR 100); [exact Hlt|].
    rewrite INR_IZR_INZ. reflexivity. }
  destruct (quantile_first 0.01 Rt Hnil Hfin ltac:(lra) ltac:(lra))
    as [worst [Hin [Hmin Eq]]].
  exists worst. split; [exact Hin|]. split; [exact Hmin|].
  split; [now rewrite Eq|].
  intros H20.
  assert (H20' : INR (length Rt) < 20).
  { apply lt_INR in H20. replace 20 with (INR 20); [exact H20|].
    rewrite INR_IZR_INZ. reflexivity. }
  unfold Spec.quantileReturn, of_nat. rewrite !mul_Fin.
  pose proof (pos_INR (length Rt)) as Hpos.
  rewrite (get_at_floor _ (0.05 * INR (length Rt)) 0) by (cbn [INR]; lra).
  rewrite (get_at_floor _ (0.01 * INR (length Rt)) 0) by (cbn [INR]; lra).
  reflexivity.
Qed.

Lemma historical_var_worst_witness :
  length (Sample.stockOnly (Fin 100)) <> 0%nat /\
  exists worst : num,
    In worst [Fin ((110 - 121) / 121); Fin ((100 - 110) / 110)] /\
    historical99 (calculatePortfolioVaR (Sample.stockOnly (Fin 100))
                                        Sample.falling Sample.unitLots)
    = (- worst * Fin 100)%num.
Proof.
  assert (Hne : length (Sample.stockOnly (Fin 100)) <> 0%nat) by discriminate.
  assert (HR :
    Spec.finiteReturns
      (Spec.valueSeries (Sample.stockOnly (Fin 100)) Sample.falling
                        Sample.unitLots)
    = [Fin ((110 - 121) / 121); Fin ((100 - 110) / 110)]).
  { rewrite falling_series, returns_of_three by lra. reflexivity. }
  assert (Hlen :
    (2 <= length (Spec.finiteReturns
                    (Spec.valueSeries (Sample.stockOnly (Fin 100))
                                      Sample.falling Sample.unitLots)))%nat).
  { rewrite HR. apply le_n. }
  assert (Hlt :
    (length (Spec.finiteReturns
               (Spec.valueSeries (Sample.stockOnly (Fin 100))
                                 Sample.falling Sample.unitLots)) < 100)%nat).
  { rewrite HR. cbn. lia. }
  split; [exact Hne|].
  destruct (historical_var_worst (Sample.stockOnly (Fin 100)) Sample.falling
              Sample.unitLots Hne Hlen Hlt) as [worst [Hin [_ [H99 _]]]].
  exists worst. rewrite HR in Hin. split; [exact Hin|].
  rewrite H99, falling_series. reflexivity.
Defined.

(* ================================================================= *)
(** ** More on the hedges *)

Lemma gamma_hedge_fields portfolio optionChain s :
  calculateGammaHedge portfolio optionChain = Some s ->
  let q := (- Spec.portfolioGamma portfolio
            / gamma (opt_greeks (sg_option s)))%num in
  sg_quantity s = Math_abs (Math_round q) /\
  action s = (if (q >? Fin 0)%num then Buy else Sell) /\
  (Math_abs (Spec.portfolioGamma portfolio) <? Fin 0.000001)%num = false.
Proof.
  unfold calculateGammaHedge. rewrite portfolio_gamma.
  destruct (length portfolio =? 0)%nat; [discriminate|].
  destruct (Math_abs (Spec.portfolioGamma portfolio) <? Fin 0.000001)%num
    eqn:Hsmall; [discriminate|].
  destruct (pop (gammaCandidates optionChain)) as [m|]; [|discriminate].
  intros H. injection H as <-. cbn [sg_option sg_quantity action].
  repeat split.
Qed.



Lemma tied_hedge_gamma :
  Spec.portfolioGamma Sample.tenLots = Fin (10 * 0.02 + 0).
Proof.
  unfold Spec.portfolioGamma, Sample.tenLots.
  cbn [map Spec.total quantity pos_option opt_greeks gamma Sample.callWith].
  now rewrite mul_Fin, add_Fin.
Qed.


(** X20.  When the option selected for the gamma hedge has a gamma of
    exactly zero and the portfolio gamma is finite, the suggestion is
    an infinite number of lots: the division is not guarded. *)
Theorem gamma_hedge_zero_gamma portfolio optionChain s (G : R) :
  calculateGammaHedge portfolio optionChain = Some s ->
  Spec.portfolioGamma portfolio = Fin G ->
  gamma (opt_greeks (sg_option s)) = Fin 0 ->
  sg_quantity s = PInf /\
  action s = (if Rlt_dec G 0 then Buy else Sell).
Proof.
  intros Hs HG Hg.
  destruct (gamma_hedge_fields portfolio optionChain s Hs) as [Hq [Ha Hbig]].
  rewrite HG, Hg, neg_Fin, div_Fin_zero in Hq, Ha.
  rewrite HG in Hbig. cbn [Math_abs] in Hbig. unfold lt, Rltb in Hbig.
  destruct (Rlt_dec (Rabs G) 0.000001) as [c|Hbig']; [discriminate|].
  assert (HG0 : G <> 0).
  { intros ->. rewrite Rabs_R0 in Hbig'. lra. }
  unfold Rsign in Hq, Ha.
  destruct (Rlt_dec G 0) as [Hneg|Hpos].
  - destruct (Rlt_dec 0 (- G)) as [_|c]; [|lra].
    cbn in Hq, Ha. split; assumption.
  - destruct (Rlt_dec 0 (- G)) as [c|_]; [lra|].
    destruct (Rlt_dec (- G) 0) as [_|c]; [|lra].
    cbn in Hq, Ha. split; assumption.
Qed.

Lemma flat_hedge :
  calculateGammaHedge Sample.tenLots Sample.flatChain
  = Some (mkSuggestion Sell PInf (Sample.callWith (Fin 100) (Fin 30) (Fin 0))
            (Sell, PInf, Fin 100, Call, Fin 30)).
Proof.
  unfold calculateGammaHedge. rewrite portfolio_gamma, tied_hedge_gamma.
  unfold gammaCandidates, Sample.flatChain, Object_values, flat.
  cbn [length Nat.eqb Sample.tenLots map snd concat app filter maturity
       Sample.callWith eqb Math_abs].
  rewrite Reqb_true. cbn [sort_by insert_by pop].
  unfold lt at 1. rewrite Rltb_false by (rewrite Rabs_pos_eq by lra; lra).
  cbn [opt_greeks gamma neg strike type maturity].
  rewrite div_Fin_zero. unfold Rsign.
  destruct (Rlt_dec 0 (- (10 * 0.02 + 0))) as [c|_]; [lra|].
  destruct (Rlt_dec (- (10 * 0.02 + 0)) 0) as [_|c]; [|lra].
  reflexivity.
Qed.

Lemma gamma_hedge_zero_gamma_witness :
  calculateGammaHedge Sample.tenLots Sample.flatChain
  = Some (mkSuggestion Sell PInf (Sample.callWith (Fin 100) (Fin 30) (Fin 0))
            (Sell, PInf, Fin 100, Call, Fin 30)) /\
  sg_quantity (mkSuggestion Sell PInf
                 (Sample.callWith (Fin 100) (Fin 30) (Fin 0))
                 (Sell, PInf, Fin 100, Call, Fin 30)) = PInf.
Proof.
  split; [exact flat_hedge|].
  exact (proj1 (gamma_hedge_zero_gamma Sample.tenLots Sample.flatChain _
                  (10 * 0.02 + 0) flat_hedge tied_hedge_gamma eq_refl)).
Defined.

Lemma add_Fin_0_any (a : num) (x : R) : x = 0 -> add a (Fin x) = a.
Proof. intros ->. apply add_0_r. Qed.

(** X21.  The hedged portfolio of the portfolio panel, built with the
    shares of [hedgePortfolio] at the configured lot size: for a finite
    portfolio delta [D] and lot size [L] its delta is [D - D * L], which
    is zero when the lot size is one; gamma, vega, theta and rho are
    those of the unhedged portfolio. *)
Theorem hedged_portfolio_greeks portfolio lastPrice config (D L : R) :
  Spec.portfolioDelta portfolio = Fin D ->
  lotSize config = Fin L ->
  let h := calculatePortfolioGreeks
             (PortfolioAnalysis.hedgedPortfolio portfolio lastPrice config) in
  let g := calculatePortfolioGreeks portfolio in
  delta h = Fin (D - D * L) /\
  (L = 1 -> delta h = Fin 0) /\
  gamma h = gamma g /\ vega h = vega g /\ theta h = theta g /\ rho h = rho g.
Proof.
  intros HD HL h g. subst h g.
  unfold PortfolioAnalysis.hedgedPortfolio. cbv zeta.
  rewrite hedgePortfolio_spec, HD, HL.
  rewrite (proj2 (portfolio_greeks_additive_aux portfolio _)).
  unfold More.addGreeks. cbn [delta gamma vega theta rho].
  rewrite (portfolio_greeks_weighted [_]).
  cbn [delta gamma vega theta rho].
  rewrite portfolio_delta, HD.
  unfold More.weighted, PortfolioAnalysis.hedgePosition.
  cbn [map Spec.total quantity pos_option opt_greeks delta gamma vega theta rho].
  fin_arith.
  assert (E : Fin (D + (- D * L * 1 + 0)) = Fin (D - D * L)) by (f_equal; ring).
  rewrite E. split; [reflexivity|]. split.
  - intros ->. f_equal. ring.
  - repeat split; apply add_Fin_0_any; ring.
Qed.

Lemma tenLots_delta : Spec.portfolioDelta Sample.tenLots = Fin (10 * 0.5 + 0).
Proof.
  unfold Spec.portfolioDelta, Sample.tenLots.
  cbn [map Spec.total quantity pos_option opt_greeks delta Sample.callWith].
  now rewrite mul_Fin, add_Fin.
Qed.

Lemma hedged_portfolio_greeks_witness :
  Spec.portfolioDelta Sample.tenLots = Fin (10 * 0.5 + 0) /\
  lotSize Sample.unitLots = Fin 1 /\
  delta (calculatePortfolioGreeks
           (PortfolioAnalysis.hedgedPortfolio Sample.tenLots (Fin 100)
                                              Sample.unitLots)) = Fin 0.
Proof.
  split; [exact tenLots_delta|]. split; [reflexivity|].
  exact (proj1 (proj2 (hedged_portfolio_greeks Sample.tenLots (Fin 100)
                         Sample.unitLots (10 * 0.5 + 0) 1 tenLots_delta
                         eq_refl)) eq_refl).
Defined.

Lemma stock_leg_price (lastPrice shares r : num) (s : R) :
  Spec.repricedOption (Fin s) r
    (PortfolioAnalysis.hedgePosition lastPrice shares) = Fin (Rmax 0 s).
Proof.
  unfold Spec.repricedOption, PortfolioAnalysis.hedgePosition.
  cbn [pos_option strike maturity iv type].
  rewrite bsm_fallback by (right; apply Rleb_true; lra).
  cbn [price]. rewrite sub_Fin, max_Fin. do 2 f_equal. lra.
Qed.

(** X22.  In the value series of the hedged portfolio (lot size one)
    the stock leg is worth its shares times the spot at every
    non-negative spot, and nothing at a negative one: the series is the
    unhedged one plus [shares * max (0, S)], whatever the rate and the
    other positions. *)
Theorem hedged_value_series portfolio lastPrice shares config (l : list R) :
  pvSeries (portfolio ++ [PortfolioAnalysis.hedgePosition lastPrice shares])
           (map Fin l) (PortfolioAnalysis.hedgedVaRConfig config)
  = map (fun s =>
           (Spec.repricedValue portfolio
              (PortfolioAnalysis.hedgedVaRConfig config) (Fin s)
            + shares * Fin (Rmax 0 s))%num) l.
Proof.
  rewrite pvSeries_spec. unfold Spec.valueSeries. rewrite map_map.
  apply map_ext. intros s. unfold Spec.repricedValue.
  rewrite map_app, total_app. f_equal.
  cbn [map Spec.total]. rewrite stock_leg_price.
  cbn [PortfolioAnalysis.hedgePosition quantity
       PortfolioAnalysis.hedgedVaRConfig lotSize].
  now rewrite mul_1_r, add_0_r.
Qed.

(* ================================================================= *)
(** ** More on the scenarios *)

Lemma pnl_scenarios_map portfolio lastPrice config :
  calculatePnLScenarios portfolio lastPrice config
  = map (Spec.shockScenario portfolio lastPrice config)
        [Fin (-0.02); Fin (-0.01); Fin 0; Fin 0.01; Fin 0.02].
Proof.
  unfold calculatePnLScenarios, scenarios.
  replace 0.0 with 0 by lra.
  apply map_ext. intros change.
  unfold Spec.shockScenario, Spec.repricedMark, Spec.currentMark,
    Spec.repricedOption.
  rewrite <- !fold_left_total_0.
  rewrite hedgePortfolio_spec, mul_1_r, lit_252. reflexivity.
Qed.

(** X23.  In the scenario of a 0% shock the hedge leg contributes
    nothing: for a finite last price and a finite portfolio delta the
    delta-hedged figure equals the unhedged one. *)
Theorem zero_shock_hedge portfolio config (c D : R) :
  Spec.portfolioDelta portfolio = Fin D ->
  forall sc, nth_error (calculatePnLScenarios portfolio (Fin c) config) 2
             = Some sc ->
  scenario sc = Fin 0 /\ pnlDeltaHedged sc = pnlUnhedged sc.
Proof.
  intros HD sc Hsc. rewrite pnl_scenarios_map in Hsc.
  cbn [map nth_error] in Hsc. injection Hsc as <-.
  unfold Spec.shockScenario. cbv zeta.
  cbn [scenario pnlDeltaHedged pnlUnhedged]. rewrite HD.
  fin_arith. split; [f_equal; ring|].
  apply add_Fin_0_any. ring.
Qed.

Lemma zero_shock_hedge_witness :
  Spec.portfolioDelta Sample.tenLots = Fin (10 * 0.5 + 0) /\
  forall sc, nth_error (calculatePnLScenarios Sample.tenLots (Fin 100)
                                              Sample.unitLots) 2 = Some sc ->
             pnlDeltaHedged sc = pnlUnhedged sc.
Proof.
  split; [exact tenLots_delta|]. intros sc Hsc.
  exact (proj2 (zero_shock_hedge Sample.tenLots Sample.unitLots 100
                  (10 * 0.5 + 0) tenLots_delta sc Hsc)).
Defined.

(** X24.  For a portfolio whose options all come from the chain
    generated at the last price and at the configured rate, re-pricing
    at the 0% shock returns the stored prices: the unhedged figure of
    that scenario is the current mark minus itself, times the lot size,
    which is zero when the mark and the lot size are finite. *)
Theorem zero_shock_consistent (c : R) (hv : num) (existing : list num)
    portfolio config :
  Forall (fun pos =>
            In (pos_option pos)
               (flat (Object_values
                        (generateOptionChain (Fin c) hv (riskFreeRate config)
                                             existing))))
         portfolio ->
  forall sc, nth_error (calculatePnLScenarios portfolio (Fin c) config) 2
             = Some sc ->
  pnlUnhedged sc
  = ((Spec.currentMark portfolio - Spec.currentMark portfolio)
     * lotSize config)%num /\
  (forall M L : R, Spec.currentMark portfolio = Fin M -> lotSize config = Fin L ->
                   pnlUnhedged sc = Fin 0).
Proof.
  intros Hpf sc Hsc. rewrite pnl_scenarios_map in Hsc.
  cbn [map nth_error] in Hsc. injection Hsc as <-.
  unfold Spec.shockScenario. cbv zeta. cbn [pnlUnhedged].
  assert (E : Spec.repricedMark portfolio (riskFreeRate config / Fin 100)
                (Fin c * (Fin 1 + Fin 0))
              = Spec.currentMark portfolio).
  { unfold Spec.repricedMark, Spec.currentMark. f_equal.
    fin_arith. replace (c * (1 + 0)) with c by ring.
    induction Hpf as [|pos l Hpos Hl IH]; [reflexivity|].
    cbn [map]. rewrite IH. f_equal. f_equal.
    apply chain_option_In in Hpos.
    destruct Hpos as [m [k [ty [_ [_ E]]]]].
    unfold Spec.repricedOption. rewrite E. reflexivity. }
  rewrite E. split; [reflexivity|].
  intros M L HM HL. rewrite HM, HL. fin_arith. f_equal. ring.
Qed.

Lemma atm_call_in_chain :
  In (More.chainOption (Fin 100) (Fin 0.2) (Fin 7) (Fin 30) (Fin 100) Call)
     (flat (Object_values (generateOptionChain (Fin 100) (Fin 0.2) (Fin 7) []))).
Proof.
  rewrite generateOptionChain_form. unfold flat, Object_values.
  cbn [map snd concat]. apply in_or_app. left.
  apply in_flat_map. exists (Fin 100).
  split; [apply strikes_cons_100|now left].
Qed.

Lemma zero_shock_consistent_witness :
  Forall (fun pos =>
            In (pos_option pos)
               (flat (Object_values
                        (generateOptionChain (Fin 100) (Fin 0.2)
                           (riskFreeRate Sample.unitLots) []))))
         [mkPosition (Fin 1)
            (More.chainOption (Fin 100) (Fin 0.2) (Fin 7) (Fin 30) (Fin 100) Call)]
  /\
  forall sc,
    nth_error (calculatePnLScenarios
                 [mkPosition (Fin 1)
                    (More.chainOption (Fin 100) (Fin 0.2) (Fin 7) (Fin 30)
                                      (Fin 100) Call)]
                 (Fin 100) Sample.unitLots) 2 = Some sc ->
    pnlUnhedged sc
    = ((Spec.currentMark
          [mkPosition (Fin 1)
             (More.chainOption (Fin 100) (Fin 0.2) (Fin 7) (Fin 30) (Fin 100) Call)]
        - Spec.currentMark
            [mkPosition (Fin 1)
               (More.chainOption (Fin 100) (Fin 0.2) (Fin 7) (Fin 30) (Fin 100)
                                 Call)])
       * lotSize Sample.unitLots)%num.
Proof.
  assert (H : Forall (fun pos =>
            In (pos_option pos)
               (flat (Object_values
                        (generateOptionChain (Fin 100) (Fin 0.2)
                           (riskFreeRate Sample.unitLots) []))))
         [mkPosition (Fin 1)
            (More.chainOption (Fin 100) (Fin 0.2) (Fin 7) (Fin 30) (Fin 100) Call)]).
  { constructor; [exact atm_call_in_chain|constructor]. }
  split; [exact H|]. intros sc Hsc.
  exact (proj1 (zero_shock_consistent 100 (Fin 0.2) [] _ Sample.unitLots H
                  sc Hsc)).
Defined.

(* ================================================================= *)
(** ** Updating the portfolio *)

Section PortfolioUpdates.
Import PortfolioAnalysis OptionChainTable.

Lemma same_id_true p i : same_id p i = true <-> id (pos_option p) = i.
Proof. unfold same_id. destruct (OptionId_eq_dec _ i); split; congruence. Qed.

Lemma same_id_false p i : same_id p i = false <-> id (pos_option p) <> i.
Proof. unfold same_id. destruct (OptionId_eq_dec _ i); split; congruence. Qed.

Lemma find_filter_keep {A} (f g : A -> bool) (l : list A) :
  (forall x, f x = true -> g x = true) ->
  find f (filter g l) = find f l.
Proof.
  intros H. induction l as [|x l IH]; [reflexivity|].
  cbn [filter find]. destruct (f x) eqn:Ef.
  - rewrite (H x Ef). cbn [find]. now rewrite Ef.
  - destruct (g x); cbn [find]; rewrite ?Ef; exact IH.
Qed.

Lemma find_filter_none {A} (f : A -> bool) (l : list A) :
  find f (filter (fun x => negb (f x)) l) = None.
Proof.
  induction l as [|x l IH]; [reflexivity|].
  cbn [filter]. destruct (f x) eqn:Ef; cbn [negb]; [exact IH|].
  cbn [find]. now rewrite Ef.
Qed.

Lemma find_map_preserving {A} (f : A -> bool) (F : A -> A) (l : list A) :
  (forall x, f (F x) = f x) ->
  find f (map F l) = option_map F (find f l).
Proof.
  intros H. induction l as [|x l IH]; [reflexivity|].
  cbn [map find]. rewrite H. destruct (f x); [reflexivity|exact IH].
Qed.

Lemma find_app_none {A} (f : A -> bool) (l : list A) (x : A) :
  find f l = None -> find f (l ++ [x]) = find f [x].
Proof.
  induction l as [|y l IH]; [reflexivity|].
  cbn [find app]. destruct (f y); [discriminate|exact IH].
Qed.

Lemma find_app_other {A} (f : A -> bool) (l : list A) (x : A) :
  f x = false -> find f (l ++ [x]) = find f l.
Proof.
  intros Hx. induction l as [|y l IH]; cbn [find app].
  - now rewrite Hx.
  - destruct (f y); [reflexivity|exact IH].
Qed.

(** X25.  After [handleUpdateQuantity] the quantity shown for the
    option is the one shown before plus the change, for every
    portfolio, option and change: a position is created, updated, or
    removed when the sum is zero. *)
Theorem update_then_lookup (pf : list PortfolioPosition) (o : Option_)
    (change : num) :
  getPositionQuantity (handleUpdateQuantity pf o change) (Some o)
  = (getPositionQuantity pf (Some o) + change)%num.
Proof.
  unfold getPositionQuantity, handleUpdateQuantity.
  destruct (find (fun p => same_id p (id o)) pf) as [e|] eqn:Hfind.
  - cbv zeta. destruct (quantity e + change =? Fin 0)%num eqn:Hz.
    + rewrite find_filter_none. symmetry. now apply eqb_eq.
    + rewrite (find_map_preserving (fun p => same_id p (id o))).
      * rewrite Hfind. cbn [option_map].
        apply find_some in Hfind. destruct Hfind as [_ He].
        now rewrite He.
      * intros x. destruct (same_id x (id o)) eqn:Ex; [|exact Ex].
        exact Ex.
  - destruct (change =? Fin 0)%num eqn:Hz; cbn [negb].
    + rewrite Hfind. apply eqb_eq in Hz. subst change.
      rewrite add_Fin. f_equal. ring.
    + rewrite find_app_none by exact Hfind. cbn [find].
      assert (Hs : same_id (mkPosition change o) (id o) = true)
        by now apply same_id_true.
      rewrite Hs. cbn [quantity]. now rewrite add_0_l.
Qed.

(** X26.  [handleUpdateQuantity] on one option leaves the quantity
    shown for every option of a different id unchanged. *)
Theorem update_other_lookup (pf : list PortfolioPosition) (o o' : Option_)
    (change : num) :
  id o' <> id o ->
  getPositionQuantity (handleUpdateQuantity pf o change) (Some o')
  = getPositionQuantity pf (Some o').
Proof.
  intros Hne. unfold getPositionQuantity, handleUpdateQuantity.
  destruct (find (fun p => same_id p (id o)) pf) as [e|] eqn:Hfind.
  - cbv zeta. destruct (quantity e + change =? Fin 0)%num.
    + rewrite find_filter_keep; [reflexivity|].
      intros x Hx. apply same_id_true in Hx.
      apply negb_true_iff, same_id_false. congruence.
    + rewrite (find_map_preserving (fun p => same_id p (id o'))).
      * destruct (find (fun p => same_id p (id o')) pf) as [p|] eqn:Hp;
          [|reflexivity].
        cbn [option_map]. apply find_some in Hp. destruct Hp as [_ Hp].
        apply same_id_true in Hp.
        assert (Hf : same_id p (id o) = false)
          by (apply same_id_false; congruence).
        now rewrite Hf.
      * intros x. destruct (same_id x (id o)); reflexivity.
  - destruct (change =? Fin 0)%num; cbn [negb]; [reflexivity|].
    rewrite find_app_other; [reflexivity|].
    apply same_id_false. cbn [pos_option]. congruence.
Qed.

End PortfolioUpdates.

Lemma update_other_lookup_witness :
  id Sample.optB <> id Sample.optA /\
  OptionChainTable.getPositionQuantity
    (OptionChainTable.handleUpdateQuantity Sample.tenLots Sample.optA (Fin 1))
    (Some Sample.optB)
  = OptionChainTable.getPositionQuantity Sample.tenLots (Some Sample.optB).
Proof.
  assert (H : id Sample.optB <> id Sample.optA).
  { cbn. intros E. injection E as E. lra. }
  split; [exact H|].
  exact (update_other_lookup Sample.tenLots Sample.optA Sample.optB (Fin 1) H).
Defined.

Section PortfolioInvariants.
Import PortfolioAnalysis OptionChainTable.

Let ids (pf : list PortfolioPosition) : list OptionId :=
  map (fun p => id (pos_option p)) pf.

Lemma NoDup_map_filter {A B} (f : A -> B) (g : A -> bool) (l : list A) :
  NoDup (map f l) -> NoDup (map f (filter g l)).
Proof.
  induction l as [|x l IH]; cbn [map filter]; intros H; [constructor|].
  inversion H as [|? ? Hnin Hnd]; subst.
  destruct (g x); cbn [map]; [|now apply IH].
  constructor; [|now apply IH].
  intros Hin. apply Hnin. apply in_map_iff in Hin.
  destruct Hin as [y [Ey Hy]]. apply filter_In in Hy.
  apply in_map_iff. exists y. now split.
Qed.

Lemma find_none_ids (pf : list PortfolioPosition) (i : OptionId) :
  find (fun p => same_id p i) pf = None -> ~ In i (ids pf).
Proof.
  intros H Hin. unfold ids in Hin. apply in_map_iff in Hin.
  destruct Hin as [p [Ep Hp]].
  pose proof (find_none _ _ H p Hp) as Hf. cbv beta in Hf.
  apply same_id_false in Hf. contradiction.
Qed.

(** X27.  [handleUpdateQuantity] keeps the portfolio well formed: if no
    position has a quantity of zero, none has afterwards; and if no two
    positions share an option id, none do afterwards. *)
Theorem update_keeps_invariants (pf : list PortfolioPosition) (o : Option_)
    (change : num) :
  (Forall (fun p => (quantity p =? Fin 0)%num = false) pf ->
   Forall (fun p => (quantity p =? Fin 0)%num = false)
          (handleUpdateQuantity pf o change)) /\
  (NoDup (map (fun p => id (pos_option p)) pf) ->
   NoDup (map (fun p => id (pos_option p)) (handleUpdateQuantity pf o change))).
Proof.
  unfold handleUpdateQuantity.
  destruct (find (fun p => same_id p (id o)) pf) as [e|] eqn:Hfind.
  - cbv zeta. destruct (quantity e + change =? Fin 0)%num eqn:Hz.
    + split.
      * intros H. apply Forall_forall. intros p Hp.
        apply filter_In in Hp. rewrite Forall_forall in H. now apply H.
      * apply NoDup_map_filter.
    + split.
      * intros H. apply Forall_forall. intros p Hp.
        apply in_map_iff in Hp. destruct Hp as [p' [<- Hp']].
        rewrite Forall_forall in H.
        destruct (same_id p' (id o)); [exact Hz|now apply H].
      * intros H. rewrite map_map.
        erewrite map_ext; [exact H|].
        intros p. cbv beta. now destruct (same_id p (id o)).
  - destruct (change =? Fin 0)%num eqn:Hz; cbn [negb]; [now split|].
    split.
    + intros H. apply Forall_app. split; [exact H|].
      constructor; [exact Hz|constructor].
    + intros H. rewrite map_app. cbn [map pos_option].
      apply NoDup_app; [exact H|repeat constructor; intros []|].
      intros i Hi [<-|[]]. exact (find_none_ids pf _ Hfind Hi).
Qed.

(** X28.  After [handleRemovePosition] the quantity shown for the
    removed id is zero and no position carries that id, while the
    quantity shown for every other id is unchanged. *)
Theorem remove_then_lookup (pf : list PortfolioPosition) (o : Option_) :
  getPositionQuantity (handleRemovePosition pf (id o)) (Some o) = Fin 0 /\
  ~ In (id o) (map (fun p => id (pos_option p))
                   (handleRemovePosition pf (id o))) /\
  (forall o', id o' <> id o ->
     getPositionQuantity (handleRemovePosition pf (id o)) (Some o')
     = getPositionQuantity pf (Some o')).
Proof.
  unfold getPositionQuantity, handleRemovePosition. split; [|split].
  - now rewrite find_filter_none.
  - apply find_none_ids. apply find_filter_none.
  - intros o' Hne. rewrite find_filter_keep; [reflexivity|].
    intros x Hx. apply same_id_true in Hx.
    apply negb_true_iff, same_id_false. congruence.
Qed.

End PortfolioInvariants.

Lemma update_keeps_invariants_witness :
  Forall (fun p => (quantity p =? Fin 0)%num = false) Sample.tenLots /\
  Forall (fun p => (quantity p =? Fin 0)%num = false)
         (OptionChainTable.handleUpdateQuantity Sample.tenLots Sample.optA
                                                (Fin 1)).
Proof.
  assert (H : Forall (fun p => (quantity p =? Fin 0)%num = false)
                     Sample.tenLots).
  { repeat constructor. cbn. apply Reqb_false. lra. }
  split; [exact H|].
  exact (proj1 (update_keeps_invariants Sample.tenLots Sample.optA (Fin 1)) H).
Defined.

(* ================================================================= *)
(** ** The generator and the simulated quotes *)

Lemma ToInt32_range (z : Z) : (- 2 ^ 31 <= Int32.ToInt32 z < 2 ^ 31)%Z.
Proof.
  unfold Int32.ToInt32.
  pose proof (Z.mod_pos_bound (z + 2 ^ 31) (2 ^ 32) ltac:(lia)). lia.
Qed.

Lemma ToInt32_small (z : Z) :
  (- 2 ^ 31 <= z < 2 ^ 31)%Z -> Int32.ToInt32 z = z.
Proof.
  intros H. unfold Int32.ToInt32. rewrite Z.mod_small by lia. lia.
Qed.

Lemma ToInt32_idem (z : Z) : Int32.ToInt32 (Int32.ToInt32 z) = Int32.ToInt32 z.
Proof. apply ToInt32_small, ToInt32_range. Qed.

Lemma ToInt32_add (b c : Z) :
  Int32.ToInt32 (Int32.ToInt32 b + c) = Int32.ToInt32 (b + c).
Proof.
  unfold Int32.ToInt32. f_equal.
  replace ((b + 2 ^ 31) mod 2 ^ 32 - 2 ^ 31 + c + 2 ^ 31)%Z
    with ((b + 2 ^ 31) mod 2 ^ 32 + c)%Z by lia.
  rewrite Zplus_mod_idemp_l. f_equal. lia.
Qed.

Lemma or_zero (z : Z) : Int32.or z 0 = Int32.ToInt32 z.
Proof.
  unfold Int32.or.
  replace (Int32.ToInt32 0) with 0%Z by reflexivity.
  now rewrite Z.lor_0_r, ToInt32_idem.
Qed.

Lemma mulberry32_call_state (a : Z) :
  fst (Simulation.mulberry32_call a) = Int32.ToInt32 (a + 0x6D2B79F5).
Proof.
  unfold Simulation.mulberry32_call. cbv zeta. cbn [fst].
  now rewrite !or_zero, ToInt32_add.
Qed.

Lemma mulberry32_call_range (a : Z) :
  exists u : R, snd (Simulation.mulberry32_call a) = Fin u /\ 0 <= u < 1.
Proof.
  unfold Simulation.mulberry32_call. cbv zeta. cbn [snd].
  eexists. split; [reflexivity|].
  set (x := Int32.xor _ _).
  assert (H : (0 <= Int32.ushr x 0 < 2 ^ 32)%Z).
  { unfold Int32.ushr, Int32.ToUint32.
    replace (0 mod 32)%Z with 0%Z by reflexivity. rewrite Z.shiftr_0_r.
    apply Z.mod_pos_bound. lia. }
  destruct H as [H0 H1]. apply IZR_le in H0. apply IZR_lt in H1.
  replace (IZR (2 ^ 32)) with 4294967296 in H1
    by (change (2 ^ 32)%Z with 4294967296%Z; reflexivity).
  split.
  - apply Rmult_le_pos; [exact H0|]. left. apply Rinv_0_lt_compat. lra.
  - apply Rmult_lt_reg_r with 4294967296; [lra|].
    unfold Rdiv. rewrite Rmult_assoc, Rinv_l by lra. lra.
Qed.

(** X29.  Every call of a [mulberry32] generator returns a finite
    number in [[0, 1)), for every integer seed; the captured variable
    is a 32-bit counter: after [n >= 1] calls it is the seed plus [n]
    times [0x6D2B79F5], wrapped to a signed 32-bit integer. *)
Theorem mulberry32_range (seed : Z) (n : nat) :
  (exists u : R, Simulation.mulberry32_output seed n = Fin u /\ 0 <= u < 1) /\
  Simulation.mulberry32_state seed (S n)
  = Int32.ToInt32 (seed + Z.of_nat (S n) * 0x6D2B79F5) /\
  (- 2 ^ 31 <= Simulation.mulberry32_state seed (S n) < 2 ^ 31)%Z.
Proof.
  split; [apply mulberry32_call_range|].
  assert (E : Simulation.mulberry32_state seed (S n)
              = Int32.ToInt32 (seed + Z.of_nat (S n) * 0x6D2B79F5)).
  { induction n as [|n IH].
    - cbn [Simulation.mulberry32_state]. rewrite mulberry32_call_state.
      f_equal.
    - change (Simulation.mulberry32_state seed (S (S n)))
        with (fst (Simulation.mulberry32_call
                     (Simulation.mulberry32_state seed (S n)))).
      rewrite mulberry32_call_state, IH, ToInt32_add. f_equal. lia. }
  split; [exact E|]. rewrite E. apply ToInt32_range.
Qed.

Lemma min_Fin x y : Math_min (Fin x) (Fin y) = Fin (Rmin x y).
Proof.
  unfold Math_min, le, Rleb, Rmin. destruct (Rle_dec x y); reflexivity.
Qed.

Lemma Int_part_between (x : R) (lo hi : Z) :
  IZR lo <= x -> x < IZR hi -> (lo <= Int_part x < hi)%Z.
Proof.
  intros Hlo Hhi. pose proof (base_Int_part x) as [H1 H2]. split.
  - assert (H : IZR lo < IZR (Int_part x + 1)) by (rewrite plus_IZR; lra).
    apply lt_IZR in H. lia.
  - apply lt_IZR. lra.
Qed.

(** X30.  For a finite non-negative last price, whatever the ticker and
    the day, the simulated quote is a consistent candle: the close is
    the last price, the low is at most the open and the close, the high
    is at least both, the open is within 1.75% of the last price, and
    the volume is a whole number from 100000 to 5099999.  The previous
    close is finite and within 1.3% of a positive last price, and NaN
    at a last price of zero. *)
Theorem live_quote_consistent (ticker : string) (day : Z) (L : R) :
  0 <= L ->
  let q := Simulation.generateLiveStockData ticker (Fin L) day in
  live_close q = Fin L /\
  (exists o h lo : R,
     live_open q = Fin o /\ live_high q = Fin h /\ live_low q = Fin lo /\
     lo <= o <= h /\ lo <= L <= h /\ Rabs (o - L) <= 0.0175 * L) /\
  (exists v : Z, live_volume q = Fin (IZR v) /\ (100000 <= v <= 5099999)%Z) /\
  (0 < L -> exists pc : R,
     live_previousClose q = Fin pc /\ Rabs (pc - L) <= 0.013 * L) /\
  (L = 0 -> live_previousClose q = NaN).
Proof.
  intros HL q. subst q. unfold Simulation.generateLiveStockData. cbv zeta.
  set (seed := (Simulation.charCodeSum ticker + day)%Z).
  pose proof (mulberry32_call_range seed) as H1.
  destruct (Simulation.mulberry32_call seed) as [a1 u1].
  destruct H1 as [x1 [E1 B1]]. cbn [snd] in E1. subst u1.
  pose proof (mulberry32_call_range a1) as H2.
  destruct (Simulation.mulberry32_call a1) as [a2 u2].
  destruct H2 as [x2 [E2 B2]]. cbn [snd] in E2. subst u2.
  pose proof (mulberry32_call_range a2) as H3.
  destruct (Simulation.mulberry32_call a2) as [a3 u3].
  destruct H3 as [x3 [E3 B3]]. cbn [snd] in E3. subst u3.
  pose proof (mulberry32_call_range a3) as H4.
  destruct (Simulation.mulberry32_call a3) as [a4 u4].
  destruct H4 as [x4 [E4 B4]]. cbn [snd] in E4. subst u4.
  pose proof (mulberry32_call_range a4) as H5.
  destruct (Simulation.mulberry32_call a4) as [a5 u5].
  destruct H5 as [x5 [E5 B5]]. cbn [snd] in E5. subst u5.
  cbn [live_close live_open live_high live_low live_volume live_previousClose].
  fin_arith. rewrite max_Fin, min_Fin. fin_arith.
  set (change := L * 0.025 * (x1 - 0.5)).
  set (o := L - change + (x2 - 0.5) * L * 0.01).
  assert (Hchange : - (0.0125 * L) <= change <= 0.0125 * L)
    by (unfold change; split; nra).
  assert (Ho : - (0.0175 * L) <= o - L <= 0.0175 * L)
    by (unfold o; split; nra).
  split; [reflexivity|]. split; [|split; [|split]].
  - exists o, (Rmax o L + x3 * L * 0.015), (Rmin o L - x4 * L * 0.015).
    split; [reflexivity|]. split; [reflexivity|]. split; [reflexivity|].
    pose proof (Rmax_l o L). pose proof (Rmax_r o L).
    pose proof (Rmin_l o L). pose proof (Rmin_r o L).
    assert (0 <= x3 * L * 0.015) by nra.
    assert (0 <= x4 * L * 0.015) by nra.
    split; [lra|]. split; [lra|]. apply Rabs_le. lra.
  - cbn [Math_floor]. eexists. split; [reflexivity|].
    assert (Hb : (100000 <= Int_part (100000 + x5 * 5000000) < 5100000)%Z).
    { apply Int_part_between; lra. }
    lia.
  - intros Hpos.
    assert (HL0 : L <> 0) by lra.
    rewrite (div_Fin change HL0). fin_arith.
    assert (Hr : - 0.0125 <= change / L <= 0.0125).
    { unfold change.
      replace (L * 0.025 * (x1 - 0.5) / L) with (0.025 * (x1 - 0.5))
        by (field; exact HL0).
      lra. }
    assert (Hden : 1 + change / L <> 0) by lra.
    rewrite div_Fin by exact Hden.
    eexists. split; [reflexivity|].
    replace (L / (1 + change / L) - L)
      with (L * (- (change / L) / (1 + change / L))) by (field; lra).
    rewrite Rabs_mult, (Rabs_pos_eq L) by lra.
    rewrite Rmult_comm. apply Rmult_le_compat_r; [lra|].
    apply Rabs_le.
    assert (Hd : 0 < 1 + change / L) by lra.
    split.
    + apply Rmult_le_reg_r with (1 + change / L); [exact Hd|].
      unfold Rdiv at 2. rewrite Rmult_assoc, Rinv_l by lra. nra.
    + apply Rmult_le_reg_r with (1 + change / L); [exact Hd|].
      unfold Rdiv at 1. rewrite Rmult_assoc, Rinv_l by lra. nra.
  - intros ->. unfold change.
    replace (0 * 0.025 * (x1 - 0.5)) with 0 by ring.
    rewrite div_Fin_zero, Rsign_zero. reflexivity.
Qed.

Lemma live_quote_consistent_witness :
  0 <= 2500 /\
  live_close (Simulation.generateLiveStockData "RELIANCE" (Fin 2500) 15)
  = Fin 2500.
Proof.
  assert (H : 0 <= 2500) by lra. split; [exact H|].
  exact (proj1 (live_quote_consistent "RELIANCE" 15 2500 H)).
Defined.
